(** * cQueue: a fixed-capacity ring of fixed-size records (FIFO / LIFO)

    Shallow embedding of [src/src/cQueue.h] (the header followed by the
    body of cQueue.c) and verification of its indexing scheme.

    Conventions of the embedding:
    - the fields of [Queue_t] are integers of type [Z]; a store into a
      [uint16_t] lvalue is written with its wrap-around ([wrap16]);
    - arithmetic on [uint16_t] operands is carried out in C on [int]
      (32 bits on the STM32 targets the library is written for) after the
      integer promotions; an [int] product that leaves the range of [int]
      is undefined behaviour ([Undefined]);
    - [Queue_t *q] is passed by value and handed back by every operation
      that may write through the pointer;
    - the region [q->queue] points to is owned by the ring: the field is
      modelled together with the state of its pointee ([region]);
    - a [void *record] argument is the caller's buffer, a list of bytes
      starting at the address passed. *)

From Stdlib Require Import ZArith List Bool Lia Strings.Byte.
From stdpp Require Import base list.
Import ListNotations.
Open Scope Z_scope.

(** ** Results of C code: a value, or undefined behaviour *)

Inductive result (A : Type) : Type :=
| Done (a : A)
| Undefined.
Arguments Done {A} a.
Arguments Undefined {A}.

Definition bind {A B : Type} (c : result A) (k : A -> result B) : result B :=
  match c with
  | Done a => k a
  | Undefined => Undefined
  end.

Notation "'let*' x ':=' c 'in' k" := (bind c (fun x => k))
  (at level 10, x name, c at level 100, k at level 200).

(** ** Machine integers *)

Definition UINT16_MAX : Z := 65535.
Definition INT_MAX : Z := 2147483647.

(** Conversion to [uint16_t]. *)
Definition wrap16 (z : Z) : Z := z mod 65536.

(** [a * b] on promoted [uint16_t] operands, computed on [int]. *)
Definition int_mul (a b : Z) : result Z :=
  if a * b <=? INT_MAX then Done (a * b) else Undefined.

(** ** Memory *)

(** What a [uint8_t *] field designates. *)
Inductive region : Type :=
| Null                        (* the null pointer *)
| Dangling                    (* indeterminate, or freed *)
| Live (bytes : list byte).   (* start of an allocated block *)

(** The [n] bytes found at offset [off] of a buffer. *)
Definition load (buf : list byte) (off n : Z) : result (list byte) :=
  if (0 <=? off) && (0 <=? n) && (off + n <=? Z.of_nat (length buf))
  then Done (take (Z.to_nat n) (drop (Z.to_nat off) buf))
  else Undefined.

(** The buffer after [data] has been written at offset [off]. *)
Definition store (buf : list byte) (off : Z) (data : list byte) : result (list byte) :=
  if (0 <=? off) && (off + Z.of_nat (length data) <=? Z.of_nat (length buf))
  then Done (take (Z.to_nat off) buf ++ data
             ++ drop (Z.to_nat off + length data) buf)
  else Undefined.

(** [memcpy(r + off, src, n)] *)
Definition memcpy_to (r : region) (off : Z) (src : list byte) (n : Z) : result region :=
  match r with
  | Live bytes =>
      let* data := load src 0 n in
      let* bytes' := store bytes off data in
      Done (Live bytes')
  | _ => Undefined
  end.

(** [memcpy(dst, r + off, n)] *)
Definition memcpy_from (dst : list byte) (r : region) (off n : Z) : result (list byte) :=
  match r with
  | Live bytes =>
      let* data := load bytes off n in
      store dst 0 data
  | _ => Undefined
  end.

(** [malloc(n)]: the allocator either fails ([None]) or hands out a fresh
    block of [n] bytes whose indeterminate contents are given by [fill]. *)
Definition malloc (n : Z) (fresh : option (nat -> byte)) : region :=
  match fresh with
  | None => Null
  | Some fill => Live (map fill (seq 0 (Z.to_nat n)))
  end.

(** [free(r)] and what the pointer designates afterwards. *)
Definition free (r : region) : result region :=
  match r with
  | Null => Done Null
  | Live _ => Done Dangling
  | Dangling => Undefined
  end.

(** ** The queue structure *)

(** [enum enumQueueType]; the field can hold any [int]. *)
Definition FIFO : Z := 0.
Definition LIFO : Z := 1.

Definition QUEUE_INITIALIZED : Z := 0x5AA5.

Record Queue_t : Type := mkQueue {
  impl : Z;           (* QueueType *)
  ovw : bool;
  rec_nb : Z;         (* uint16_t *)
  rec_sz : Z;         (* uint16_t *)
  queue_sz : Z;       (* uint32_t *)
  queue : region;     (* uint8_t * *)
  in_ : Z;            (* uint16_t in *)
  out : Z;            (* uint16_t *)
  cnt : Z;            (* uint16_t *)
  init : Z            (* uint16_t *)
}.

Definition set_impl (q : Queue_t) (v : Z) : Queue_t :=
  mkQueue v (ovw q) (rec_nb q) (rec_sz q) (queue_sz q) (queue q) (in_ q) (out q) (cnt q) (init q).
Definition set_ovw (q : Queue_t) (v : bool) : Queue_t :=
  mkQueue (impl q) v (rec_nb q) (rec_sz q) (queue_sz q) (queue q) (in_ q) (out q) (cnt q) (init q).
Definition set_rec_nb (q : Queue_t) (v : Z) : Queue_t :=
  mkQueue (impl q) (ovw q) v (rec_sz q) (queue_sz q) (queue q) (in_ q) (out q) (cnt q) (init q).
Definition set_rec_sz (q : Queue_t) (v : Z) : Queue_t :=
  mkQueue (impl q) (ovw q) (rec_nb q) v (queue_sz q) (queue q) (in_ q) (out q) (cnt q) (init q).
Definition set_queue (q : Queue_t) (v : region) : Queue_t :=
  mkQueue (impl q) (ovw q) (rec_nb q) (rec_sz q) (queue_sz q) v (in_ q) (out q) (cnt q) (init q).
Definition set_in (q : Queue_t) (v : Z) : Queue_t :=
  mkQueue (impl q) (ovw q) (rec_nb q) (rec_sz q) (queue_sz q) (queue q) v (out q) (cnt q) (init q).
Definition set_out (q : Queue_t) (v : Z) : Queue_t :=
  mkQueue (impl q) (ovw q) (rec_nb q) (rec_sz q) (queue_sz q) (queue q) (in_ q) v (cnt q) (init q).
Definition set_cnt (q : Queue_t) (v : Z) : Queue_t :=
  mkQueue (impl q) (ovw q) (rec_nb q) (rec_sz q) (queue_sz q) (queue q) (in_ q) (out q) v (init q).
Definition set_init (q : Queue_t) (v : Z) : Queue_t :=
  mkQueue (impl q) (ovw q) (rec_nb q) (rec_sz q) (queue_sz q) (queue q) (in_ q) (out q) (cnt q) v.

(** ** Index macros *)

(** [INC_IDX(ctr, end, start)]: the new value of the [uint16_t] [ctr]. *)
Definition INC_IDX (ctr end_ start : Z) : Z :=
  if ctr <? end_ - 1 then wrap16 (ctr + 1) else wrap16 start.

(** [DEC_IDX(ctr, end, start)]: the new value of the [uint16_t] [ctr]. *)
Definition DEC_IDX (ctr end_ start : Z) : Z :=
  if ctr >? start then wrap16 (ctr - 1) else wrap16 (end_ - 1).

(** ** Queries (inline functions of the header) *)

Definition q_isInitialized (q : Queue_t) : bool :=
  if init q =? QUEUE_INITIALIZED then true else false.

Definition q_isEmpty (q : Queue_t) : bool :=
  if cnt q =? 0 then true else false.

Definition q_isFull (q : Queue_t) : bool :=
  if cnt q =? rec_nb q then true else false.

Definition q_sizeof (q : Queue_t) : Z := queue_sz q.

Definition q_getCount (q : Queue_t) : Z := cnt q.

Definition q_getRemainingCount (q : Queue_t) : Z := wrap16 (rec_nb q - cnt q).

(** ** Operations (cQueue.c) *)

Definition q_kill (q : Queue_t) : result Queue_t :=
  let* r := free (queue q) in
  Done (set_queue q r).

(** The body the source spells [q_clean]; the header's
    [#define q_clean q_flush] makes it the definition of [q_flush]. *)
Definition q_flush (q : Queue_t) : Queue_t :=
  let q := set_in q 0 in
  let q := set_out q 0 in
  set_cnt q 0.

Abbreviation q_clean := q_flush (only parsing).

(** [fresh] is the answer of the allocator to the one [malloc] call. *)
Definition q_init (q : Queue_t) (size_rec nb_recs : Z) (type : Z) (overwrite : bool)
    (fresh : option (nat -> byte)) : result Queue_t :=
  let q := set_rec_nb q nb_recs in
  let q := set_rec_sz q size_rec in
  let q := set_impl q type in
  let q := set_ovw q overwrite in
  let* q := (if init q =? 0x5AA5 then q_kill q else Done q) in
  let* n := int_mul nb_recs size_rec in
  let q := set_queue q (malloc n fresh) in
  let q := set_init q 0x5AA5 in
  Done (q_clean q).

Definition q_push (q : Queue_t) (record : list byte) : result (bool * Queue_t) :=
  if negb (ovw q) && q_isFull q then Done (false, q) else
  let* off := int_mul (rec_sz q) (in_ q) in
  let* r := memcpy_to (queue q) off record (rec_sz q) in
  let q := set_queue q r in
  let q := set_in q (INC_IDX (in_ q) (rec_nb q) 0) in
  if negb (q_isFull q) then Done (true, set_cnt q (wrap16 (cnt q + 1)))
  else if ovw q then
    if impl q =? FIFO then Done (true, set_out q (INC_IDX (out q) (rec_nb q) 0))
    else Done (true, q)
  else Done (true, q).

Definition q_pop (q : Queue_t) (record : list byte) : result (bool * Queue_t * list byte) :=
  if q_isEmpty q then Done (false, q, record) else
  if impl q =? FIFO then
    let* off := int_mul (rec_sz q) (out q) in
    let q1 := set_out q (INC_IDX (out q) (rec_nb q) 0) in
    let* record' := memcpy_from record (queue q1) off (rec_sz q1) in
    Done (true, set_cnt q1 (wrap16 (cnt q1 - 1)), record')
  else if impl q =? LIFO then
    let q1 := set_in q (DEC_IDX (in_ q) (rec_nb q) 0) in
    let* off := int_mul (rec_sz q1) (in_ q1) in
    let* record' := memcpy_from record (queue q1) off (rec_sz q1) in
    Done (true, set_cnt q1 (wrap16 (cnt q1 - 1)), record')
  else Done (false, q, record).

Definition q_peek (q : Queue_t) (record : list byte) : result (bool * Queue_t * list byte) :=
  if q_isEmpty q then Done (false, q, record) else
  if impl q =? FIFO then
    let* off := int_mul (rec_sz q) (out q) in
    let* record' := memcpy_from record (queue q) off (rec_sz q) in
    Done (true, q, record')
  else if impl q =? LIFO then
    let rec := DEC_IDX (in_ q) (rec_nb q) 0 in
    let* off := int_mul (rec_sz q) rec in
    let* record' := memcpy_from record (queue q) off (rec_sz q) in
    Done (true, q, record')
  else Done (false, q, record).

Definition q_drop (q : Queue_t) : bool * Queue_t :=
  if q_isEmpty q then (false, q) else
  if impl q =? FIFO then
    let q := set_out q (INC_IDX (out q) (rec_nb q) 0) in
    (true, set_cnt q (wrap16 (cnt q - 1)))
  else if impl q =? LIFO then
    let q := set_in q (DEC_IDX (in_ q) (rec_nb q) 0) in
    (true, set_cnt q (wrap16 (cnt q - 1)))
  else (false, q).

(** [#define q_init_def(q, sz) q_init(q, sz, 20, FIFO, false)] *)
Definition q_init_def (q : Queue_t) (sz : Z) (fresh : option (nat -> byte)) : result Queue_t :=
  q_init q sz 20 FIFO false fresh.

(** [#define q_pull q_pop] and [#define q_nbRecs q_getCount] *)
Abbreviation q_pull := q_pop (only parsing).
Abbreviation q_nbRecs := q_getCount (only parsing).

(** ** Client loops used to state the round-trip properties *)

(** [for (r in recs) ok[i] = q_push(q, r);] *)
Fixpoint push_all (q : Queue_t) (recs : list (list byte)) : result (list bool * Queue_t) :=
  match recs with
  | [] => Done ([], q)
  | r :: recs' =>
      let* p := q_push q r in
      let '(ok, q1) := p in
      let* ps := push_all q1 recs' in
      let '(oks, q2) := ps in
      Done (ok :: oks, q2)
  end.

(** [n] calls of [q_pop], each into a buffer that holds [buf] before the
    call; the status and the buffer after each call are collected. *)
Fixpoint pop_n (q : Queue_t) (n : nat) (buf : list byte)
    : result (list (bool * list byte) * Queue_t) :=
  match n with
  | O => Done ([], q)
  | S n' =>
      let* p := q_pop q buf in
      let '(ok, q1, r) := p in
      let* ps := pop_n q1 n' buf in
      let '(rs, q2) := ps in
      Done ((ok, r) :: rs, q2)
  end.

(** Push all of [recs], then pop as many times. *)
Definition push_then_pop (q : Queue_t) (recs : list (list byte)) (buf : list byte)
    : result (list bool * list (bool * list byte)) :=
  let* p := push_all q recs in
  let '(oks, q1) := p in
  let* ps := pop_n q1 (length recs) buf in
  let '(rs, _) := ps in
  Done (oks, rs).

(** ** Representation invariant and abstraction *)

(** A ready ring: initialised, storage of [rec_nb * rec_sz] bytes, cursors
    inside the ring, count within capacity; in FIFO mode the read cursor
    trails the write cursor by [cnt] slots. *)
Definition ready_ringb (q : Queue_t) : bool :=
  (init q =? QUEUE_INITIALIZED)
  && (0 <? rec_nb q) && (rec_nb q <=? UINT16_MAX)
  && (0 <=? rec_sz q) && (rec_sz q <=? UINT16_MAX)
  && (rec_nb q * rec_sz q <=? INT_MAX)
  && match queue q with
     | Live bytes => Z.of_nat (length bytes) =? rec_nb q * rec_sz q
     | _ => false
     end
  && (0 <=? in_ q) && (in_ q <? rec_nb q)
  && (0 <=? out q) && (out q <? rec_nb q)
  && (0 <=? cnt q) && (cnt q <=? rec_nb q)
  && (if impl q =? FIFO then out q =? (in_ q - cnt q) mod rec_nb q else true).

Definition ready_ring (q : Queue_t) : Prop := ready_ringb q = true.

(** The bytes of the storage region ([[]] when there is none). *)
Definition storage (q : Queue_t) : list byte :=
  match queue q with
  | Live bytes => bytes
  | _ => []
  end.

(** The record held by slot [i] of a region of [sz]-byte slots. *)
Definition slot (bytes : list byte) (sz i : Z) : list byte :=
  take (Z.to_nat sz) (drop (Z.to_nat (sz * i)) bytes).

(** The live records, oldest first: the [cnt] slots that precede [in]. *)
Definition contents (q : Queue_t) : list (list byte) :=
  map (fun k => slot (storage q) (rec_sz q) ((in_ q - cnt q + Z.of_nat k) mod rec_nb q))
      (seq 0 (Z.to_nat (cnt q))).

(** States a client can reach from a [q_init] with a positive number of
    records, whatever the allocator answers, by calls that return. *)
Inductive reachable : Queue_t -> Prop :=
| reach_init q0 size_rec nb_recs type overwrite fresh q :
    0 <= size_rec <= UINT16_MAX -> 0 < nb_recs <= UINT16_MAX ->
    q_init q0 size_rec nb_recs type overwrite fresh = Done q ->
    reachable q
| reach_push q record ok q' :
    reachable q -> q_push q record = Done (ok, q') -> reachable q'
| reach_pop q record ok q' record' :
    reachable q -> q_pop q record = Done (ok, q', record') -> reachable q'
| reach_peek q record ok q' record' :
    reachable q -> q_peek q record = Done (ok, q', record') -> reachable q'
| reach_drop q ok q' :
    reachable q -> q_drop q = (ok, q') -> reachable q'
| reach_flush q :
    reachable q -> reachable (q_flush q)
| reach_kill q q' :
    reachable q -> q_kill q = Done q' -> reachable q'.

(** The fields an operation other than [q_init] never writes. *)
Definition same_config (q q' : Queue_t) : Prop :=
  impl q' = impl q /\ ovw q' = ovw q /\ rec_nb q' = rec_nb q
  /\ rec_sz q' = rec_sz q /\ queue_sz q' = queue_sz q /\ init q' = init q.

(** [rmap f c]: the result of [c] seen through [f]. *)
Definition rmap {A B : Type} (f : A -> B) (c : result A) : result B :=
  match c with
  | Done a => Done (f a)
  | Undefined => Undefined
  end.

(** The count invariant, with the range of the capacity's type. *)
Definition count_inv (q : Queue_t) : Prop :=
  0 <= cnt q <= rec_nb q /\ rec_nb q <= UINT16_MAX.

(** ** Concrete rings used in the examples *)

(** A [Queue_t] with static storage duration before any call. *)
Definition zeroed : Queue_t := mkQueue 0 false 0 0 0 Null 0 0 0 0.

Definition recA : list byte := [x41]%byte.
Definition recB : list byte := [x42]%byte.
Definition recC : list byte := [x43]%byte.
Definition recD : list byte := [x44]%byte.

(** Three one-byte slots, empty. *)
Definition ring3 (type : Z) (overwrite : bool) : Queue_t :=
  mkQueue type overwrite 3 1 0 (Live [x00; x00; x00]%byte) 0 0 0 QUEUE_INITIALIZED.

(** Three one-byte slots, FIFO, holding the single record [recD]. *)
Definition fifo_one : Queue_t :=
  mkQueue FIFO false 3 1 0 (Live [x44; x00; x00]%byte) 1 0 1 QUEUE_INITIALIZED.

(** Three one-byte slots holding [recA], [recB], [recC]: a full ring. *)
Definition full3 (type : Z) (overwrite : bool) : Queue_t :=
  mkQueue type overwrite 3 1 0 (Live [x41; x42; x43]%byte) 0 0 3 QUEUE_INITIALIZED.


(** * Verification *)

(** Case analysis on every test and every fallible step of an operation. *)
Ltac op_cases :=
  repeat match goal with
         | |- context [bind ?c _] => destruct c; cbn [bind rmap]
         | |- context [if ?b then _ else _] => destruct b
         end.

(** ** Index arithmetic *)

Section Indexes.

Lemma wrap16_small z : 0 <= z <= UINT16_MAX -> wrap16 z = z.
Proof. unfold wrap16, UINT16_MAX. intros. apply Z.mod_small. lia. Qed.

Lemma mod_unique_range a b k n : 0 <= b < n -> a = b + k * n -> a mod n = b.
Proof. intros Hb ->. rewrite Z_mod_plus_full. now apply Z.mod_small. Qed.

(** On a valid index, [INC_IDX] is the successor modulo the capacity. *)
Lemma INC_IDX_mod i n :
  0 <= i < n -> n <= UINT16_MAX -> INC_IDX i n 0 = (i + 1) mod n.
Proof.
  intros Hi Hn. unfold INC_IDX.
  destruct (Z.ltb_spec i (n - 1)).
  - rewrite wrap16_small, Z.mod_small; lia.
  - change (wrap16 0) with 0. symmetry.
    apply (mod_unique_range _ _ 1); lia.
Qed.

(** On a valid index, [DEC_IDX] is the predecessor modulo the capacity. *)
Lemma DEC_IDX_mod i n :
  0 <= i < n -> n <= UINT16_MAX -> DEC_IDX i n 0 = (i - 1) mod n.
Proof.
  intros Hi Hn. unfold DEC_IDX. rewrite Z.gtb_ltb.
  destruct (Z.ltb_spec 0 i).
  - rewrite wrap16_small, Z.mod_small; lia.
  - rewrite wrap16_small by lia. symmetry.
    apply (mod_unique_range _ _ (-1)); lia.
Qed.

Lemma mod_range a n : 0 < n -> 0 <= a mod n < n.
Proof. intros. apply Z.mod_pos_bound. lia. Qed.

Lemma mod_shift_neq a k n : 0 < k < n -> (a + k) mod n <> a mod n.
Proof.
  intros Hk Heq.
  assert (Hn : 0 < n) by lia.
  pose proof (mod_range a n Hn).
  rewrite <- Zplus_mod_idemp_l in Heq.
  revert Heq. generalize dependent (a mod n). intros b Hb.
  destruct (Z_lt_dec (b + k) n).
  - rewrite Z.mod_small; lia.
  - rewrite (mod_unique_range (b + k) (b + k - n) 1); lia.
Qed.

End Indexes.

(** ** Slots of the storage region *)

Section Slots.

Implicit Types (bytes data : list byte) (off o m : nat).

Lemma splice_at bytes data off rest :
  (off <= length bytes)%nat ->
  take (length data) (drop off (take off bytes ++ data ++ rest)) = data.
Proof.
  intros H. rewrite drop_app_length' by (rewrite length_take_le; lia).
  apply take_app_length.
Qed.

Lemma splice_before bytes data off rest o m :
  (o + m <= off)%nat -> (off <= length bytes)%nat ->
  take m (drop o (take off bytes ++ data ++ rest)) = take m (drop o bytes).
Proof.
  intros H1 H2.
  rewrite drop_app_le by (rewrite length_take_le; lia).
  rewrite take_app_le by (rewrite length_drop, length_take_le; lia).
  rewrite !take_drop_commute, take_take. f_equal. f_equal. lia.
Qed.

Lemma splice_after bytes data off o :
  (off + length data <= o)%nat -> (off <= length bytes)%nat ->
  drop o (take off bytes ++ data ++ drop (off + length data) bytes) = drop o bytes.
Proof.
  intros H1 H2.
  rewrite drop_app_ge by (rewrite length_take_le; lia).
  rewrite length_take_le by lia.
  rewrite drop_app_ge by lia.
  rewrite drop_drop. f_equal. lia.
Qed.

Variables (n sz : Z) (bytes : list byte).
Hypothesis Hsz : 0 <= sz.
Hypothesis Hlen : Z.of_nat (length bytes) = n * sz.

Lemma slot_length i : 0 <= i < n -> length (slot bytes sz i) = Z.to_nat sz.
Proof.
  intros Hi. unfold slot. rewrite length_take_le; [reflexivity|].
  rewrite length_drop. nia.
Qed.

Lemma load_slot i : 0 <= i < n -> load bytes (sz * i) sz = Done (slot bytes sz i).
Proof.
  intros Hi. unfold load, slot.
  replace ((0 <=? sz * i) && (0 <=? sz) && (sz * i + sz <=? Z.of_nat (length bytes)))
    with true; [reflexivity|].
  symmetry. rewrite !andb_true_iff, !Z.leb_le. nia.
Qed.

Lemma store_slot i data :
  0 <= i < n -> length data = Z.to_nat sz ->
  exists bytes',
    store bytes (sz * i) data = Done bytes'
    /\ Z.of_nat (length bytes') = n * sz
    /\ slot bytes' sz i = data
    /\ forall j, 0 <= j < n -> j <> i -> slot bytes' sz j = slot bytes sz j.
Proof.
  intros Hi Hd. unfold store.
  replace ((0 <=? sz * i) && (sz * i + Z.of_nat (length data) <=? Z.of_nat (length bytes)))
    with true by (symmetry; rewrite !andb_true_iff, !Z.leb_le; nia).
  eexists. split; [reflexivity|].
  assert (Hoff : (Z.to_nat (sz * i) + length data <= length bytes)%nat) by nia.
  split; [|split].
  - rewrite !length_app, length_take_le, length_drop by lia. lia.
  - unfold slot. rewrite <- Hd. apply splice_at. lia.
  - intros j Hj Hne. unfold slot.
    destruct (Z_lt_dec j i).
    + apply splice_before; nia.
    + f_equal. apply splice_after; nia.
Qed.

End Slots.

(** ** The representation invariant, unfolded *)

Section Ready.

Lemma ready_ring_spec q :
  ready_ring q <->
  init q = QUEUE_INITIALIZED
  /\ 0 < rec_nb q <= UINT16_MAX
  /\ 0 <= rec_sz q <= UINT16_MAX
  /\ rec_nb q * rec_sz q <= INT_MAX
  /\ (exists bytes, queue q = Live bytes
                    /\ Z.of_nat (length bytes) = rec_nb q * rec_sz q)
  /\ 0 <= in_ q < rec_nb q
  /\ 0 <= out q < rec_nb q
  /\ 0 <= cnt q <= rec_nb q
  /\ (impl q = FIFO -> out q = (in_ q - cnt q) mod rec_nb q).
Proof.
  unfold ready_ring, ready_ringb.
  rewrite !andb_true_iff, !Z.leb_le, !Z.ltb_lt, Z.eqb_eq.
  assert (Hq : match queue q with
               | Live bytes => Z.of_nat (length bytes) =? rec_nb q * rec_sz q
               | _ => false
               end = true <->
               exists bytes, queue q = Live bytes
                             /\ Z.of_nat (length bytes) = rec_nb q * rec_sz q).
  { destruct (queue q) as [| |bytes].
    - split; [discriminate|intros (? & ? & _); discriminate].
    - split; [discriminate|intros (? & ? & _); discriminate].
    - rewrite Z.eqb_eq. split; [eauto|].
      intros (b & [= <-] & H). exact H. }
  assert (Hf : (if impl q =? FIFO then out q =? (in_ q - cnt q) mod rec_nb q else true) = true
               <-> (impl q = FIFO -> out q = (in_ q - cnt q) mod rec_nb q)).
  { destruct (Z.eqb_spec (impl q) FIFO); [rewrite Z.eqb_eq|]; tauto. }
  rewrite Hq, Hf. tauto.
Qed.

End Ready.

(** ** Push on a ready ring *)

Section Push.

Lemma load_prefix (record : list byte) n :
  0 <= n -> (Z.to_nat n <= length record)%nat ->
  load record 0 n = Done (take (Z.to_nat n) record).
Proof.
  intros Hn Hlen. unfold load.
  replace ((0 <=? 0) && (0 <=? n) && (0 + n <=? Z.of_nat (length record))) with true
    by (symmetry; rewrite !andb_true_iff, !Z.leb_le; lia).
  reflexivity.
Qed.

Lemma int_mul_slot sz n i :
  0 <= sz -> 0 <= i < n -> n * sz <= INT_MAX -> int_mul sz i = Done (sz * i).
Proof.
  intros Hsz Hi Hmax. unfold int_mul.
  destruct (Z.leb_spec (sz * i) INT_MAX); [reflexivity|nia].
Qed.

Lemma q_push_ready q record :
  ready_ring q ->
  (Z.to_nat (rec_sz q) <= length record)%nat ->
  ovw q = true \/ cnt q < rec_nb q ->
  exists q',
    q_push q record = Done (true, q')
    /\ ready_ring q'
    /\ same_config q q'
    /\ in_ q' = INC_IDX (in_ q) (rec_nb q) 0
    /\ cnt q' = Z.min (cnt q + 1) (rec_nb q)
    /\ out q' = (if (cnt q =? rec_nb q) && (impl q =? FIFO)
                 then INC_IDX (out q) (rec_nb q) 0 else out q)
    /\ slot (storage q') (rec_sz q) (in_ q) = take (Z.to_nat (rec_sz q)) record
    /\ (forall j, 0 <= j < rec_nb q -> j <> in_ q ->
          slot (storage q') (rec_sz q) j = slot (storage q) (rec_sz q) j).
Proof.
  intros Hr Hrec Hroom.
  apply ready_ring_spec in Hr.
  destruct Hr as (Hinit & Hnb & Hsz & Hmax & (bytes & Hq & Hlen) & Hin & Hout & Hcnt & Hfifo).
  destruct q as [impl0 ovw0 nb sz qsz qu i o c ini]. simpl in *. subst qu.
  destruct (store_slot nb sz bytes (proj1 Hsz) Hlen i (take (Z.to_nat sz) record))
    as (bytes' & Hst & Hlen' & Hsame & Hother); [lia|rewrite length_take_le; lia|].
  unfold q_push, q_isFull, memcpy_to. simpl.
  assert (Hguard : negb ovw0 && (if c =? nb then true else false) = false).
  { destruct Hroom as [-> | Hlt]; [reflexivity|].
    destruct (Z.eqb_spec c nb); [lia|]. apply andb_false_r. }
  rewrite Hguard.
  rewrite (int_mul_slot sz nb i) by lia. simpl.
  rewrite load_prefix by lia. simpl. rewrite Hst. simpl.
  pose proof (INC_IDX_mod i nb Hin (proj2 Hnb)) as Hinc.
  pose proof (mod_range (i + 1) nb (proj1 Hnb)) as Hincr.
  destruct (Z.eqb_spec c nb) as [-> | Hne]; simpl.
  - (* full, overwrite *)
    destruct Hroom as [-> | ?]; [|lia].
    destruct (Z.eqb_spec impl0 FIFO) as [-> | Himpl].
    + eexists. split; [reflexivity|]. simpl.
      pose proof (INC_IDX_mod o nb Hout (proj2 Hnb)) as Hinco.
      pose proof (mod_range (o + 1) nb (proj1 Hnb)) as Hincor.
      split; [|unfold same_config; simpl; repeat split; auto; lia].
      apply ready_ring_spec. simpl.
      repeat split; eauto; try lia.
      intros _. rewrite Hinc, Hinco, (Hfifo eq_refl).
      rewrite Zplus_mod_idemp_l, Zminus_mod_idemp_l. f_equal. lia.
    + eexists. split; [reflexivity|]. simpl.
      split; [|unfold same_config; simpl; repeat split; auto; lia].
      apply ready_ring_spec. simpl.
      repeat split; eauto; lia.
  - eexists. split; [reflexivity|]. simpl.
    assert (Hw : wrap16 (c + 1) = c + 1) by (apply wrap16_small; lia).
    rewrite Hw.
    split; [|unfold same_config; simpl; repeat split; auto; lia].
    apply ready_ring_spec. simpl.
    repeat split; eauto; try lia.
    intros Himpl. rewrite Hinc, (Hfifo Himpl).
    rewrite Zminus_mod_idemp_l. f_equal. lia.
Qed.

End Push.

(** ** The abstraction after a push *)

Section ContentsPush.

Lemma mod_sub_add a b c n : (a mod n - b + c) mod n = (a - b + c) mod n.
Proof.
  replace (a mod n - b + c) with (a mod n + (c - b)) by lia.
  rewrite Zplus_mod_idemp_l. f_equal. lia.
Qed.

Lemma map_seq_tl {A} (f : nat -> A) m :
  tl (map f (seq 0 (S m))) = map (fun k => f (S k)) (seq 0 m).
Proof. simpl. now rewrite <- seq_shift, map_map. Qed.

Lemma map_seq_snoc {A} (f : nat -> A) m :
  map f (seq 0 (S m)) = map f (seq 0 m) ++ [f m].
Proof. now rewrite seq_S, map_app. Qed.

Variables (q q' : Queue_t) (r : list byte).
Hypothesis Hr : ready_ring q.
Hypothesis Hcfg : same_config q q'.
Hypothesis Hin' : in_ q' = INC_IDX (in_ q) (rec_nb q) 0.
Hypothesis Hcnt' : cnt q' = Z.min (cnt q + 1) (rec_nb q).
Hypothesis Hsame : slot (storage q') (rec_sz q) (in_ q) = r.
Hypothesis Hother : forall j, 0 <= j < rec_nb q -> j <> in_ q ->
  slot (storage q') (rec_sz q) j = slot (storage q) (rec_sz q) j.

Lemma contents_push :
  contents q' = (if cnt q =? rec_nb q then tl (contents q) else contents q) ++ [r].
Proof.
  apply ready_ring_spec in Hr.
  destruct Hr as (_ & Hnb & _ & _ & _ & Hin & _ & Hcnt & _).
  destruct Hcfg as (_ & _ & Enb & Esz & _).
  unfold contents. rewrite Enb, Esz, Hin', Hcnt', INC_IDX_mod by lia.
  set (nb := rec_nb q) in *. set (i := in_ q) in *. set (c := cnt q) in *.
  assert (Hi : i mod nb = i) by (apply Z.mod_small; lia).
  destruct (Z.eqb_spec c nb) as [Hfull | Hroom].
  - rewrite Hfull, Z.min_r by lia.
    destruct (Z.to_nat nb) as [|m] eqn:Hm; [lia|].
    rewrite map_seq_tl, map_seq_snoc.
    f_equal.
    + apply map_ext_in. intros k Hk%in_seq.
      rewrite mod_sub_add.
      replace ((i - nb + Z.of_nat (S k)) mod nb) with ((i + 1 - nb + Z.of_nat k) mod nb)
        by (f_equal; lia).
      apply Hother; [apply mod_range; lia|].
      rewrite <- Hi at 2.
      replace (i + 1 - nb + Z.of_nat k) with (i + (1 + Z.of_nat k) + (-1) * nb) by lia.
      rewrite Z_mod_plus_full. apply mod_shift_neq. lia.
    + rewrite mod_sub_add.
      replace (i + 1 - nb + Z.of_nat m) with (i + 0 * nb) by lia.
      rewrite Z_mod_plus_full, Hi. now rewrite Hsame.
  - rewrite Z.min_l by lia.
    replace (Z.to_nat (c + 1)) with (S (Z.to_nat c)) by lia.
    rewrite map_seq_snoc. f_equal.
    + apply map_ext_in. intros k Hk%in_seq.
      rewrite mod_sub_add.
      replace (i + 1 - (c + 1) + Z.of_nat k) with (i - c + Z.of_nat k) by lia.
      apply Hother; [apply mod_range; lia|].
      rewrite <- Hi at 2.
      replace i with (i - c + Z.of_nat k + (c - Z.of_nat k)) at 2 by lia.
      intros Heq. symmetry in Heq. revert Heq. apply mod_shift_neq. lia.
    + rewrite mod_sub_add.
      replace (i + 1 - (c + 1) + Z.of_nat (Z.to_nat c)) with i by lia.
      now rewrite Hi, Hsame.
Qed.

End ContentsPush.

(** ** Pop and peek on a ready ring *)

Section Pop.

Lemma store_prefix (dst data : list byte) :
  (length data <= length dst)%nat ->
  store dst 0 data = Done (data ++ drop (length data) dst).
Proof.
  intros H. unfold store.
  replace ((0 <=? 0) && (0 + Z.of_nat (length data) <=? Z.of_nat (length dst))) with true
    by (symmetry; rewrite !andb_true_iff, !Z.leb_le; lia).
  reflexivity.
Qed.

(** Reading slot [i] of a ready ring into the caller's buffer. *)
Lemma memcpy_from_slot q buf i :
  ready_ring q -> 0 <= i < rec_nb q ->
  (Z.to_nat (rec_sz q) <= length buf)%nat ->
  memcpy_from buf (queue q) (rec_sz q * i) (rec_sz q)
  = Done (slot (storage q) (rec_sz q) i ++ drop (Z.to_nat (rec_sz q)) buf).
Proof.
  intros Hr Hi Hbuf. apply ready_ring_spec in Hr.
  destruct Hr as (_ & Hnb & Hsz & _ & (bytes & Hq & Hlen) & _).
  unfold memcpy_from, storage. rewrite Hq.
  rewrite (load_slot (rec_nb q)) by lia. simpl.
  pose proof (slot_length (rec_nb q) (rec_sz q) bytes (proj1 Hsz) Hlen i Hi) as Hl.
  rewrite store_prefix by lia. now rewrite Hl.
Qed.

Lemma q_pop_fifo q buf :
  ready_ring q -> impl q = FIFO -> 0 < cnt q ->
  (Z.to_nat (rec_sz q) <= length buf)%nat ->
  exists q',
    q_pop q buf = Done (true, q', slot (storage q) (rec_sz q) (out q)
                                  ++ drop (Z.to_nat (rec_sz q)) buf)
    /\ ready_ring q'
    /\ same_config q q'
    /\ queue q' = queue q
    /\ in_ q' = in_ q
    /\ out q' = INC_IDX (out q) (rec_nb q) 0
    /\ cnt q' = cnt q - 1
    /\ contents q = slot (storage q) (rec_sz q) (out q) :: contents q'.
Proof.
  intros Hr Himpl Hpos Hbuf.
  pose proof (proj1 (ready_ring_spec q) Hr)
    as (Hinit & Hnb & Hsz & Hmax & (bytes & Hq & Hlen) & Hin & Hout & Hcnt & Hfifo).
  specialize (Hfifo Himpl).
  pose proof (memcpy_from_slot q buf (out q) Hr Hout Hbuf) as Hcpy.
  unfold q_pop, q_isEmpty.
  destruct (Z.eqb_spec (cnt q) 0) as [?|_]; [lia|].
  rewrite Himpl. change (FIFO =? FIFO) with true. cbv iota.
  rewrite (int_mul_slot _ (rec_nb q)) by lia. cbn [bind].
  change (queue (set_out q _)) with (queue q).
  change (rec_sz (set_out q _)) with (rec_sz q).
  rewrite Hcpy. cbn [bind].
  eexists. split; [reflexivity|].
  pose proof (INC_IDX_mod (out q) (rec_nb q) Hout (proj2 Hnb)) as Hinc.
  pose proof (mod_range (out q + 1) (rec_nb q) (proj1 Hnb)) as Hincr.
  assert (Hw : wrap16 (cnt q - 1) = cnt q - 1) by (apply wrap16_small; lia).
  cbn [set_cnt set_out impl ovw rec_nb rec_sz queue_sz queue in_ out cnt init].
  rewrite Hw.
  split; [|split; [unfold same_config; simpl; tauto|]].
  - apply ready_ring_spec. simpl.
    repeat split; eauto; try lia.
    intros _. rewrite Hinc, Hfifo, Zplus_mod_idemp_l. f_equal. lia.
  - repeat split; try reflexivity.
    unfold contents, storage. simpl.
    destruct (Z.to_nat (cnt q)) as [|m] eqn:Hm; [lia|].
    replace (Z.to_nat (cnt q - 1)) with m by lia.
    cbn [seq map]. rewrite <- seq_shift, map_map. f_equal.
    + rewrite Hfifo. do 2 f_equal. lia.
    + apply map_ext. intros k. do 2 f_equal. lia.
Qed.

Lemma q_pop_lifo q buf :
  ready_ring q -> impl q = LIFO -> 0 < cnt q ->
  (Z.to_nat (rec_sz q) <= length buf)%nat ->
  exists q',
    q_pop q buf = Done (true, q', slot (storage q) (rec_sz q) (DEC_IDX (in_ q) (rec_nb q) 0)
                                  ++ drop (Z.to_nat (rec_sz q)) buf)
    /\ ready_ring q'
    /\ same_config q q'
    /\ queue q' = queue q
    /\ in_ q' = DEC_IDX (in_ q) (rec_nb q) 0
    /\ out q' = out q
    /\ cnt q' = cnt q - 1
    /\ contents q = contents q' ++ [slot (storage q) (rec_sz q) (DEC_IDX (in_ q) (rec_nb q) 0)].
Proof.
  intros Hr Himpl Hpos Hbuf.
  pose proof (proj1 (ready_ring_spec q) Hr)
    as (Hinit & Hnb & Hsz & Hmax & (bytes & Hq & Hlen) & Hin & Hout & Hcnt & _).
  pose proof (DEC_IDX_mod (in_ q) (rec_nb q) Hin (proj2 Hnb)) as Hdec.
  pose proof (mod_range (in_ q - 1) (rec_nb q) (proj1 Hnb)) as Hdecr.
  rewrite <- Hdec in Hdecr.
  pose proof (memcpy_from_slot q buf _ Hr Hdecr Hbuf) as Hcpy.
  unfold q_pop, q_isEmpty.
  destruct (Z.eqb_spec (cnt q) 0) as [?|_]; [lia|].
  rewrite Himpl. change (LIFO =? FIFO) with false. change (LIFO =? LIFO) with true.
  cbv iota.
  change (rec_sz (set_in q _)) with (rec_sz q).
  change (queue (set_in q _)) with (queue q).
  change (in_ (set_in q ?v)) with v.
  rewrite (int_mul_slot _ (rec_nb q)) by lia. cbn [bind].
  rewrite Hcpy. cbn [bind].
  eexists. split; [reflexivity|].
  assert (Hw : wrap16 (cnt q - 1) = cnt q - 1) by (apply wrap16_small; lia).
  cbn [set_cnt set_in impl ovw rec_nb rec_sz queue_sz queue in_ out cnt init].
  rewrite Hw.
  split; [|split; [unfold same_config; simpl; tauto|]].
  - apply ready_ring_spec. simpl.
    repeat split; eauto; try lia.
    intros E. rewrite Himpl in E. discriminate.
  - repeat split; try reflexivity.
    unfold contents, storage. simpl.
    destruct (Z.to_nat (cnt q)) as [|m] eqn:Hm; [lia|].
    replace (Z.to_nat (cnt q - 1)) with m by lia.
    rewrite map_seq_snoc. f_equal.
    + apply map_ext. intros k. rewrite Hdec, mod_sub_add. do 2 f_equal. lia.
    + rewrite Hdec. do 3 f_equal. lia.
Qed.

End Pop.

(** ** Sequences of pushes and pops *)

Section Sequences.

Lemma same_config_refl q : same_config q q.
Proof. unfold same_config. tauto. Qed.

Lemma same_config_trans q1 q2 q3 :
  same_config q1 q2 -> same_config q2 q3 -> same_config q1 q3.
Proof. unfold same_config. intuition congruence. Qed.

Lemma contents_length q : length (contents q) = Z.to_nat (cnt q).
Proof. unfold contents. now rewrite length_map, length_seq. Qed.

Lemma push_all_ready recs : forall q,
  ready_ring q ->
  Forall (fun r => length r = Z.to_nat (rec_sz q)) recs ->
  ovw q = true \/ cnt q + Z.of_nat (length recs) <= rec_nb q ->
  exists q',
    push_all q recs = Done (map (fun _ => true) recs, q')
    /\ ready_ring q'
    /\ same_config q q'
    /\ contents q'
       = drop (length (contents q ++ recs) - Z.to_nat (rec_nb q)) (contents q ++ recs).
Proof.
  induction recs as [|r rest IH]; intros q Hr Hrecs Hroom.
  - exists q. split; [reflexivity|]. split; [assumption|].
    split; [apply same_config_refl|].
    apply ready_ring_spec in Hr.
    rewrite app_nil_r, contents_length.
    replace (Z.to_nat (cnt q) - Z.to_nat (rec_nb q))%nat with 0%nat by lia.
    reflexivity.
  - apply Forall_cons in Hrecs as [Hlen Hrest].
    pose proof (proj1 (ready_ring_spec q) Hr) as (_ & Hnb & _ & _ & _ & _ & _ & Hcnt & _).
    destruct (q_push_ready q r Hr) as (q1 & Hpush & Hr1 & Hcfg & Hin & Hc & Hout & Hsame & Hother);
      [lia|cbn [length] in Hroom; destruct Hroom; [now left|right; lia]|].
    rewrite take_ge in Hsame by lia.
    pose proof (contents_push q q1 r Hr Hcfg Hin Hc Hsame Hother) as Hcont.
    pose proof Hcfg as (_ & Eovw & Enb & Esz & _).
    destruct (IH q1 Hr1) as (q2 & Hall & Hr2 & Hcfg2 & Hcont2).
    + now rewrite Esz.
    + rewrite Eovw, Enb. cbn [length] in Hroom.
      destruct Hroom; [now left|right; lia].
    + exists q2. cbn [push_all]. rewrite Hpush. cbn [bind]. rewrite Hall. cbn [bind map].
      split; [reflexivity|]. split; [assumption|].
      split; [eapply same_config_trans; eassumption|].
      rewrite Hcont2, Hcont, Enb.
      pose proof (contents_length q) as Hl.
      destruct (Z.eqb_spec (cnt q) (rec_nb q)) as [Hfull|Hne].
      * destruct (contents q) as [|h t]; simpl in Hl; [lia|].
        cbn [tl]. rewrite <- !app_assoc. cbn [app].
        cbn [length]. rewrite !length_app. cbn [length].
        replace (length t + S (length rest) - Z.to_nat (rec_nb q))%nat
          with (length rest) by lia.
        replace (S (length t + S (length rest)) - Z.to_nat (rec_nb q))%nat
          with (S (length rest)) by lia.
        reflexivity.
      * rewrite <- !app_assoc. reflexivity.
Qed.

Lemma pop_n_fifo n : forall q buf,
  ready_ring q -> impl q = FIFO -> Z.of_nat n <= cnt q ->
  (Z.to_nat (rec_sz q) <= length buf)%nat ->
  exists q',
    pop_n q n buf
    = Done (map (fun r => (true, r ++ drop (Z.to_nat (rec_sz q)) buf)) (take n (contents q)), q')
    /\ ready_ring q'
    /\ same_config q q'
    /\ contents q' = drop n (contents q).
Proof.
  induction n as [|n IH]; intros q buf Hr Himpl Hn Hbuf.
  - exists q. repeat split; auto using same_config_refl.
  - destruct (q_pop_fifo q buf Hr Himpl) as (q1 & Hpop & Hr1 & Hcfg & _ & _ & _ & Hc & Hcont);
      [lia|assumption|].
    pose proof Hcfg as (Eimpl & _ & _ & Esz & _).
    destruct (IH q1 buf Hr1) as (q2 & Hpops & Hr2 & Hcfg2 & Hcont2);
      [congruence|lia|now rewrite Esz|].
    exists q2. cbn [pop_n]. rewrite Hpop. cbn [bind]. rewrite Hpops. cbn [bind].
    rewrite Hcont, Esz. cbn [take drop map].
    split; [reflexivity|]. split; [assumption|].
    split; [eapply same_config_trans; eassumption|assumption].
Qed.

Lemma pop_n_lifo n : forall q buf,
  ready_ring q -> impl q = LIFO -> Z.of_nat n <= cnt q ->
  (Z.to_nat (rec_sz q) <= length buf)%nat ->
  exists q',
    pop_n q n buf
    = Done (map (fun r => (true, r ++ drop (Z.to_nat (rec_sz q)) buf))
                (take n (rev (contents q))), q')
    /\ ready_ring q'
    /\ same_config q q'
    /\ rev (contents q') = drop n (rev (contents q)).
Proof.
  induction n as [|n IH]; intros q buf Hr Himpl Hn Hbuf.
  - exists q. repeat split; auto using same_config_refl.
  - destruct (q_pop_lifo q buf Hr Himpl) as (q1 & Hpop & Hr1 & Hcfg & _ & _ & _ & Hc & Hcont);
      [lia|assumption|].
    pose proof Hcfg as (Eimpl & _ & _ & Esz & _).
    destruct (IH q1 buf Hr1) as (q2 & Hpops & Hr2 & Hcfg2 & Hcont2);
      [congruence|lia|now rewrite Esz|].
    exists q2. cbn [pop_n]. rewrite Hpop. cbn [bind]. rewrite Hpops. cbn [bind].
    rewrite Hcont, Esz, rev_unit. cbn [take drop map].
    split; [reflexivity|]. split; [assumption|].
    split; [eapply same_config_trans; eassumption|assumption].
Qed.

End Sequences.

(** ** Closure of the ready rings under the operations *)

Section Closure.

Variables (q : Queue_t) (buf : list byte).
Hypothesis Hr : ready_ring q.
Hypothesis Hbuf : (Z.to_nat (rec_sz q) <= length buf)%nat.

(** Peek returns the status and the bytes pop returns. *)
Lemma q_peek_as_pop :
  exists ok q' buf',
    q_pop q buf = Done (ok, q', buf') /\ q_peek q buf = Done (ok, q, buf').
Proof.
  pose proof (proj1 (ready_ring_spec q) Hr) as (_ & Hnb & Hsz & Hmax & _ & Hin & Hout & _).
  pose proof (DEC_IDX_mod (in_ q) (rec_nb q) Hin (proj2 Hnb)) as Hdec.
  pose proof (mod_range (in_ q - 1) (rec_nb q) (proj1 Hnb)) as Hdecr.
  rewrite <- Hdec in Hdecr.
  unfold q_pop, q_peek.
  destruct (q_isEmpty q); [eauto|].
  destruct (impl q =? FIFO); [|destruct (impl q =? LIFO); [|eauto]].
  - rewrite (int_mul_slot _ (rec_nb q)) by lia. cbn [bind].
    change (queue (set_out q _)) with (queue q).
    change (rec_sz (set_out q _)) with (rec_sz q).
    rewrite memcpy_from_slot by assumption. cbn [bind]. eauto.
  - change (rec_sz (set_in q _)) with (rec_sz q).
    change (queue (set_in q _)) with (queue q).
    change (in_ (set_in q ?v)) with v.
    rewrite (int_mul_slot _ (rec_nb q)) by lia. cbn [bind].
    rewrite memcpy_from_slot by assumption. cbn [bind]. eauto.
Qed.

(** Drop moves the cursors and the count as pop does. *)
Lemma q_drop_as_pop :
  exists buf', q_pop q buf = Done (fst (q_drop q), snd (q_drop q), buf').
Proof.
  pose proof (proj1 (ready_ring_spec q) Hr) as (_ & Hnb & Hsz & Hmax & _ & Hin & Hout & _).
  pose proof (DEC_IDX_mod (in_ q) (rec_nb q) Hin (proj2 Hnb)) as Hdec.
  pose proof (mod_range (in_ q - 1) (rec_nb q) (proj1 Hnb)) as Hdecr.
  rewrite <- Hdec in Hdecr.
  unfold q_pop, q_drop.
  destruct (q_isEmpty q); [eauto|].
  destruct (impl q =? FIFO); [|destruct (impl q =? LIFO); [|eauto]].
  - rewrite (int_mul_slot _ (rec_nb q)) by lia. cbn [bind].
    change (queue (set_out q _)) with (queue q).
    change (rec_sz (set_out q _)) with (rec_sz q).
    rewrite memcpy_from_slot by assumption. cbn [bind fst snd]. eauto.
  - change (rec_sz (set_in q _)) with (rec_sz q).
    change (queue (set_in q _)) with (queue q).
    change (in_ (set_in q ?v)) with v.
    rewrite (int_mul_slot _ (rec_nb q)) by lia. cbn [bind].
    rewrite memcpy_from_slot by assumption. cbn [bind fst snd]. eauto.
Qed.



End Closure.

(** * The properties of the specification *)

Section RoundTrip.

Lemma map_snoc_nil (recs : list (list byte)) :
  map (fun r : list byte => (true, r ++ [])) recs = map (fun r => (true, r)) recs.
Proof. apply map_ext. intros r. now rewrite app_nil_r. Qed.

(** C1 (as amended). On a ready ring, pushing [N <= capacity] records of
    [rec_sz] bytes and then popping [N] times succeeds every time and
    gives back exactly the pushed blocks: in the order pushed in FIFO mode
    when the ring was empty before the pushes, or [N] is 0, or overwrite is
    enabled and [N] is the capacity; and in exact reverse order in LIFO
    mode when overwrite is enabled or the ring had [N] free slots. *)
Theorem push_then_pop_round_trip q recs buf :
  ready_ring q ->
  Z.of_nat (length recs) <= rec_nb q ->
  Forall (fun r => length r = Z.to_nat (rec_sz q)) recs ->
  length buf = Z.to_nat (rec_sz q) ->
  (impl q = FIFO
   /\ (cnt q = 0 \/ recs = []
       \/ (ovw q = true /\ Z.of_nat (length recs) = rec_nb q)))
  \/ (impl q = LIFO
      /\ (ovw q = true \/ cnt q + Z.of_nat (length recs) <= rec_nb q)) ->
  push_then_pop q recs buf
  = Done (map (fun _ => true) recs,
          map (fun r => (true, r)) (if impl q =? FIFO then recs else rev recs)).
Proof.
  intros Hr HN Hrecs Hbuf Hmode.
  pose proof (proj1 (ready_ring_spec q) Hr) as (_ & Hnb & _ & _ & _ & _ & _ & Hcnt & _).
  assert (Hroom : ovw q = true \/ cnt q + Z.of_nat (length recs) <= rec_nb q).
  { destruct Hmode as [[_ [Hc|[->|[Hovw _]]]]|[_ H]];
      [right; lia|right; simpl; lia|now left|exact H]. }
  destruct (push_all_ready recs q Hr Hrecs Hroom) as (q1 & Hall & Hr1 & Hcfg & Hcont).
  pose proof Hcfg as (Eimpl & _ & Enb & Esz & _).
  pose proof (contents_length q) as Hl.
  pose proof (contents_length q1) as Hl1.
  assert (Hk : (length (contents q ++ recs) - Z.to_nat (rec_nb q) <= length (contents q))%nat)
    by (rewrite length_app; lia).
  rewrite drop_app_le in Hcont by exact Hk.
  rewrite Hcont, !length_app, length_drop in Hl1.
  pose proof (proj1 (ready_ring_spec q1) Hr1) as (_ & _ & _ & _ & _ & _ & _ & Hcnt1 & _).
  unfold push_then_pop. rewrite Hall. cbn [bind].
  destruct Hmode as [[Himpl Hfifo]|[Himpl _]].
  - destruct (pop_n_fifo (length recs) q1 buf Hr1) as (q2 & Hpops & _);
      [congruence|lia|lia|].
    rewrite Hpops. cbn [bind]. rewrite Himpl. change (FIFO =? FIFO) with true.
    assert (Ht : take (length recs) (contents q1) = recs).
    { rewrite Hcont. destruct Hfifo as [Hc|[->|[_ HN']]].
      - rewrite drop_ge by lia. cbn [app]. apply take_ge. lia.
      - cbn [length]. apply take_0.
      - rewrite drop_ge by (rewrite length_app; lia). cbn [app]. apply take_ge. lia. }
    rewrite Ht, drop_ge by lia. now rewrite map_snoc_nil.
  - destruct (pop_n_lifo (length recs) q1 buf Hr1) as (q2 & Hpops & _);
      [congruence|lia|lia|].
    rewrite Hpops. cbn [bind]. rewrite Himpl. change (LIFO =? FIFO) with false.
    rewrite Hcont, rev_app_distr.
    rewrite take_app_length' by now rewrite length_rev.
    rewrite drop_ge by lia. now rewrite map_snoc_nil.
Qed.

Lemma push_then_pop_round_trip_witness :
  push_then_pop (ring3 FIFO false) [recA; recB; recC] [x00%byte]
  = Done ([true; true; true], [(true, recA); (true, recB); (true, recC)])
  /\ push_then_pop (full3 FIFO true) [recD; recB; recA] [x00%byte]
     = Done ([true; true; true], [(true, recD); (true, recB); (true, recA)])
  /\ push_then_pop (full3 LIFO true) [recD; recA] [x00%byte]
     = Done ([true; true], [(true, recA); (true, recD)]).
Proof.
  split; [|split].
  - apply (push_then_pop_round_trip (ring3 FIFO false) [recA; recB; recC] [x00%byte]).
    + reflexivity.
    + simpl. lia.
    + repeat constructor.
    + reflexivity.
    + left. split; [reflexivity|left; reflexivity].
  - apply (push_then_pop_round_trip (full3 FIFO true) [recD; recB; recA] [x00%byte]).
    + reflexivity.
    + simpl. lia.
    + repeat constructor.
    + reflexivity.
    + left. split; [reflexivity|right; right; split; reflexivity].
  - apply (push_then_pop_round_trip (full3 LIFO true) [recD; recA] [x00%byte]).
    + reflexivity.
    + simpl. lia.
    + repeat constructor.
    + reflexivity.
    + right. split; [reflexivity|left; reflexivity].
Defined.

(** C1 as stated fails on a ready FIFO ring that already holds a record
    (here the ring left by [q_init] and one push of [recD]): one push of
    [recA] followed by one pop gives back the older [recD]. *)
Lemma round_trip_fails_on_nonempty_fifo :
  (let* q := q_init zeroed 1 3 FIFO false (Some (fun _ => x00%byte)) in q_push q recD)
  = Done (true, fifo_one)
  /\ ready_ring fifo_one
  /\ impl fifo_one = FIFO
  /\ Z.of_nat (length [recA]) <= rec_nb fifo_one
  /\ Forall (fun r => length r = Z.to_nat (rec_sz fifo_one)) [recA]
  /\ push_then_pop fifo_one [recA] [x00%byte] = Done ([true], [(true, recD)])
  /\ push_then_pop fifo_one [recA] [x00%byte]
     <> Done (map (fun _ => true) [recA], map (fun r => (true, r)) [recA]).
Proof.
  split; [reflexivity|].
  split; [reflexivity|]. split; [reflexivity|]. split; [simpl; lia|].
  split; [repeat constructor|]. split; [reflexivity|].
  vm_compute. discriminate.
Qed.

End RoundTrip.

Section Failures.

Lemma q_push_false q record q' : q_push q record = Done (false, q') -> q' = q.
Proof. unfold q_push, memcpy_to. op_cases; congruence. Qed.

Lemma q_pop_false q record q' record' :
  q_pop q record = Done (false, q', record') -> q' = q /\ record' = record.
Proof. unfold q_pop. op_cases; intros [= <- <-] || discriminate; auto. Qed.

Lemma q_peek_false q record q' record' :
  q_peek q record = Done (false, q', record') -> q' = q /\ record' = record.
Proof. unfold q_peek. op_cases; intros [= <- <-] || discriminate; auto. Qed.

Lemma q_drop_false q q' : q_drop q = (false, q') -> q' = q.
Proof. unfold q_drop. op_cases; congruence. Qed.

(** C2. On a ready ring a failing operation changes nothing: a push on a
    full ring without overwrite returns false (Full) and the ring, with its
    count, cursors and storage, is the one passed; pop, peek and drop on an
    empty ring return false (Empty), the ring and the caller's buffer are
    the ones passed; and whenever push, pop, peek or drop return false the
    whole state is unchanged. *)
Theorem failed_operation_changes_nothing q record :
  ready_ring q ->
  (ovw q = false -> cnt q = rec_nb q -> q_push q record = Done (false, q))
  /\ (cnt q = 0 ->
      q_pop q record = Done (false, q, record)
      /\ q_peek q record = Done (false, q, record)
      /\ q_drop q = (false, q))
  /\ (forall q', q_push q record = Done (false, q') -> q' = q)
  /\ (forall q' record', q_pop q record = Done (false, q', record') ->
        q' = q /\ record' = record)
  /\ (forall q' record', q_peek q record = Done (false, q', record') ->
        q' = q /\ record' = record)
  /\ (forall q', q_drop q = (false, q') -> q' = q).
Proof.
  intros _. split; [|split].
  - intros Hovw Hfull. unfold q_push, q_isFull.
    now rewrite Hovw, Hfull, Z.eqb_refl.
  - intros Hempty. unfold q_pop, q_peek, q_drop, q_isEmpty.
    now rewrite Hempty.
  - repeat split; intros;
      eauto using q_push_false, q_drop_false;
      try (eapply q_pop_false; eassumption);
      try (eapply q_peek_false; eassumption).
Qed.

Lemma failed_operation_changes_nothing_witness :
  q_push (full3 FIFO false) recD = Done (false, full3 FIFO false)
  /\ q_pop (ring3 LIFO false) [x00%byte] = Done (false, ring3 LIFO false, [x00%byte]).
Proof.
  split.
  - apply (failed_operation_changes_nothing (full3 FIFO false) recD); reflexivity.
  - apply (failed_operation_changes_nothing (ring3 LIFO false) [x00%byte]); reflexivity.
Defined.

End Failures.

Section Overwrite.

(** C3. A push on a ready full ring with overwrite enabled returns true;
    the count stays at the capacity; the record is written into slot [in]
    (the other slots keep their bytes) and [in] moves to its successor
    modulo the capacity. In FIFO mode [out] moves to its successor modulo
    the capacity too, and the next pop gives the second-oldest of the
    records held before the push followed by the new one; in LIFO mode
    [out] is the one before the push. *)
Theorem push_on_full_ring_overwrites q record :
  ready_ring q -> cnt q = rec_nb q -> ovw q = true ->
  (Z.to_nat (rec_sz q) <= length record)%nat ->
  exists q',
    q_push q record = Done (true, q')
    /\ ready_ring q'
    /\ cnt q' = rec_nb q' /\ rec_nb q' = rec_nb q
    /\ slot (storage q') (rec_sz q) (in_ q) = take (Z.to_nat (rec_sz q)) record
    /\ (forall j, 0 <= j < rec_nb q -> j <> in_ q ->
          slot (storage q') (rec_sz q) j = slot (storage q) (rec_sz q) j)
    /\ in_ q' = INC_IDX (in_ q) (rec_nb q) 0
    /\ in_ q' = (in_ q + 1) mod rec_nb q
    /\ (impl q = FIFO ->
        out q' = INC_IDX (out q) (rec_nb q) 0
        /\ out q' = (out q + 1) mod rec_nb q
        /\ forall buf, (Z.to_nat (rec_sz q) <= length buf)%nat ->
             exists q'',
               q_pop q' buf
               = Done (true, q'',
                       nth 1 (contents q ++ [take (Z.to_nat (rec_sz q)) record]) []
                       ++ drop (Z.to_nat (rec_sz q)) buf))
    /\ (impl q = LIFO -> out q' = out q).
Proof.
  intros Hr Hfull Hovw Hrec.
  pose proof (proj1 (ready_ring_spec q) Hr) as (_ & Hnb & _ & _ & _ & Hin & Hout & _).
  destruct (q_push_ready q record Hr Hrec (or_introl Hovw))
    as (q' & Hpush & Hr' & Hcfg & Hin' & Hcnt' & Hout' & Hsame & Hother).
  pose proof (contents_push q q' _ Hr Hcfg Hin' Hcnt' Hsame Hother) as Hcont.
  pose proof Hcfg as (Eimpl & _ & Enb & Esz & _).
  rewrite Hfull, Z.eqb_refl in Hcont, Hout'. cbn [andb] in Hout'.
  exists q'. split; [exact Hpush|]. split; [exact Hr'|].
  split; [rewrite Hcnt', Enb; lia|]. split; [exact Enb|].
  split; [exact Hsame|]. split; [exact Hother|]. split; [exact Hin'|].
  split; [rewrite Hin'; apply INC_IDX_mod; lia|].
  split.
  - intros Himpl. rewrite Himpl in Hout'. change (FIFO =? FIFO) with true in Hout'.
    split; [exact Hout'|]. split; [rewrite Hout'; apply INC_IDX_mod; lia|].
    intros buf Hbuf.
    destruct (q_pop_fifo q' buf Hr') as (q'' & Hpop & _ & _ & _ & _ & _ & _ & Hc');
      [congruence|lia|now rewrite Esz|].
    exists q''. rewrite Hpop, Esz. do 3 f_equal.
    pose proof (contents_length q) as Hl.
    destruct (contents q) as [|h t]; [simpl in Hl; lia|].
    cbn [tl app nth] in *. rewrite Hc' in Hcont.
    rewrite Esz in Hcont. now rewrite <- Hcont.
  - intros Himpl. rewrite Himpl in Hout'. exact Hout'.
Qed.

Lemma push_on_full_ring_overwrites_witness :
  exists q',
    q_push (full3 FIFO true) recD = Done (true, q')
    /\ cnt q' = 3 /\ in_ q' = 1 /\ out q' = 1
    /\ exists q'', q_pop q' [x00%byte] = Done (true, q'', recB).
Proof.
  destruct (push_on_full_ring_overwrites (full3 FIFO true) recD)
    as (q' & Hpush & _ & Hcnt & Hnb & _ & _ & Hin & _ & Hfifo & _);
    [reflexivity|reflexivity|reflexivity|simpl; lia|].
  destruct (Hfifo eq_refl) as (Hout & _ & Hpop).
  destruct (Hpop [x00%byte]) as (q'' & Hpop'); [simpl; lia|].
  exists q'. split; [exact Hpush|]. split; [rewrite Hcnt, Hnb; reflexivity|].
  split; [exact Hin|]. split; [exact Hout|].
  exists q''. exact Hpop'.
Defined.

End Overwrite.

Section Peek.

(** C4. On a ready ring peek hands the ring back as it was passed (cursors,
    count and storage included), and two consecutive peeks, each into a
    buffer of at least [rec_sz] bytes, return the same status and copy the
    same [rec_sz] bytes [r] to the front of their buffer, in FIFO and in
    LIFO mode alike. *)
Theorem peek_is_pure q bufA bufB :
  ready_ring q ->
  (Z.to_nat (rec_sz q) <= length bufA)%nat ->
  (Z.to_nat (rec_sz q) <= length bufB)%nat ->
  exists (ok : bool) (r : list byte),
    q_peek q bufA
    = Done (ok, q, if ok then r ++ drop (Z.to_nat (rec_sz q)) bufA else bufA)
    /\ q_peek q bufB
       = Done (ok, q, if ok then r ++ drop (Z.to_nat (rec_sz q)) bufB else bufB)
    /\ (ok = true ->
        length r = Z.to_nat (rec_sz q)
        /\ (impl q = FIFO -> r = slot (storage q) (rec_sz q) (out q))
        /\ (impl q = LIFO ->
            r = slot (storage q) (rec_sz q) (DEC_IDX (in_ q) (rec_nb q) 0)))
    /\ (ok = true <-> cnt q <> 0 /\ (impl q = FIFO \/ impl q = LIFO)).
Proof.
  intros Hr HA HB.
  pose proof (proj1 (ready_ring_spec q) Hr)
    as (_ & Hnb & Hsz & Hmax & (bytes & Hq & Hlen) & Hin & Hout & _).
  pose proof (DEC_IDX_mod (in_ q) (rec_nb q) Hin (proj2 Hnb)) as Hdec.
  pose proof (mod_range (in_ q - 1) (rec_nb q) (proj1 Hnb)) as Hdecr.
  rewrite <- Hdec in Hdecr.
  assert (Hsl : forall i, 0 <= i < rec_nb q ->
                  length (slot (storage q) (rec_sz q) i) = Z.to_nat (rec_sz q)).
  { intros i Hi. unfold storage. rewrite Hq.
    apply (slot_length (rec_nb q)); [lia|assumption|assumption]. }
  unfold q_peek, q_isEmpty.
  destruct (Z.eqb_spec (cnt q) 0) as [Hc|Hc].
  { exists false, []. repeat split; try discriminate; tauto. }
  destruct (Z.eqb_spec (impl q) FIFO) as [Himpl|Hnf].
  { exists true, (slot (storage q) (rec_sz q) (out q)).
    rewrite (int_mul_slot _ (rec_nb q)) by lia. cbn [bind].
    rewrite !memcpy_from_slot by assumption. cbn [bind].
    repeat split; auto. intros E. rewrite Himpl in E. discriminate. }
  destruct (Z.eqb_spec (impl q) LIFO) as [Himpl|Hnl].
  { exists true, (slot (storage q) (rec_sz q) (DEC_IDX (in_ q) (rec_nb q) 0)).
    rewrite (int_mul_slot _ (rec_nb q)) by lia. cbn [bind].
    rewrite !memcpy_from_slot by assumption. cbn [bind].
    repeat split; auto. intros E. contradiction. }
  exists false, []. repeat split; try discriminate; tauto.
Qed.

Lemma peek_is_pure_witness :
  exists (ok : bool) (r : list byte),
    q_peek (full3 LIFO false) [x00%byte] = Done (ok, full3 LIFO false, if ok then r ++ [] else [x00%byte])
    /\ q_peek (full3 LIFO false) [xff%byte] = Done (ok, full3 LIFO false, if ok then r ++ [] else [xff%byte]).
Proof.
  destruct (peek_is_pure (full3 LIFO false) [x00%byte] [xff%byte])
    as (ok & r & HA & HB & _); [reflexivity|simpl; lia|simpl; lia|].
  exists ok, r. split; [exact HA|exact HB].
Defined.

End Peek.

Section Flush.

(** C5. On a ready ring flush sets [in], [out] and the count to 0 and leaves
    the capacity, the record size, the mode, the overwrite flag, the ready
    flag and the storage region as they were; the ring is still ready. *)
Theorem flush_resets_cursors q :
  ready_ring q ->
  in_ (q_flush q) = 0 /\ out (q_flush q) = 0 /\ cnt (q_flush q) = 0
  /\ rec_nb (q_flush q) = rec_nb q
  /\ rec_sz (q_flush q) = rec_sz q
  /\ impl (q_flush q) = impl q
  /\ ovw (q_flush q) = ovw q
  /\ init (q_flush q) = init q
  /\ q_isInitialized (q_flush q) = q_isInitialized q
  /\ queue (q_flush q) = queue q
  /\ storage (q_flush q) = storage q
  /\ queue_sz (q_flush q) = queue_sz q
  /\ ready_ring (q_flush q).
Proof.
  intros Hr. repeat split.
  apply ready_ring_spec in Hr. apply ready_ring_spec. simpl.
  destruct Hr as (? & ? & ? & ? & ? & ? & ? & ? & ?).
  repeat split; auto; try lia.
Qed.

Lemma flush_resets_cursors_witness :
  in_ (q_flush (full3 FIFO true)) = 0
  /\ out (q_flush (full3 FIFO true)) = 0
  /\ cnt (q_flush (full3 FIFO true)) = 0
  /\ storage (q_flush (full3 FIFO true)) = [x41; x42; x43]%byte.
Proof.
  destruct (flush_resets_cursors (full3 FIFO true))
    as (Hin & Hout & Hcnt & _ & _ & _ & _ & _ & _ & _ & Hst & _); [reflexivity|].
  repeat split; assumption.
Defined.

End Flush.

Section Creation.

(** Whenever [q_init] returns, the structure is the one below: every field
    but [queue_sz] is written, [init] is set whatever [malloc] answered. *)
Lemma q_init_done q0 size_rec nb_recs type overwrite fresh q :
  q_init q0 size_rec nb_recs type overwrite fresh = Done q ->
  nb_recs * size_rec <= INT_MAX
  /\ q = mkQueue type overwrite nb_recs size_rec (queue_sz q0)
                 (malloc (nb_recs * size_rec) fresh) 0 0 0 QUEUE_INITIALIZED.
Proof.
  unfold q_init, q_kill, free, int_mul. simpl.
  destruct (Z.leb_spec (nb_recs * size_rec) INT_MAX) as [Hle|Hgt];
    destruct (init q0 =? 23205); try destruct (queue q0);
    simpl; try discriminate; intros [= <-]; auto.
Qed.

(** [q_init] returns on a structure that is not marked initialised. *)
Lemma q_init_fresh q0 size_rec nb_recs type overwrite fresh :
  init q0 <> QUEUE_INITIALIZED -> nb_recs * size_rec <= INT_MAX ->
  exists q, q_init q0 size_rec nb_recs type overwrite fresh = Done q.
Proof.
  intros Hinit Hmax. unfold q_init, int_mul. simpl.
  destruct (Z.eqb_spec (init q0) 23205) as [E|_]; [now elim Hinit|].
  destruct (Z.leb_spec (nb_recs * size_rec) INT_MAX); [|lia].
  simpl. eauto.
Qed.

(** A [q_init] whose allocation succeeds yields a ready ring. *)
Lemma q_init_ready q0 size_rec nb_recs type overwrite fill q :
  0 <= size_rec <= UINT16_MAX -> 0 < nb_recs <= UINT16_MAX ->
  q_init q0 size_rec nb_recs type overwrite (Some fill) = Done q ->
  ready_ring q.
Proof.
  intros Hsz Hnb Hq. apply q_init_done in Hq as [Hmax ->].
  apply ready_ring_spec. simpl.
  assert (Hlen : Z.of_nat (length (map fill (seq 0 (Z.to_nat (nb_recs * size_rec)))))
                 = nb_recs * size_rec)
    by (rewrite length_map, length_seq; nia).
  assert (Hmod : 0 = (0 - 0) mod nb_recs) by (symmetry; apply Z.mod_0_l; lia).
  repeat split; eauto; lia.
Qed.

End Creation.

Section CountInvariant.

Lemma q_push_count q record ok q' :
  count_inv q -> q_push q record = Done (ok, q') -> count_inv q'.
Proof.
  unfold count_inv. intros [Hc Hn].
  destruct q as [impl0 ovw0 nb sz qsz qu i o c ini].
  unfold q_push, q_isFull. simpl in *.
  destruct (negb ovw0 && (if c =? nb then true else false)).
  { intros [= <- <-]. simpl. lia. }
  destruct (int_mul sz i); [|discriminate]. cbn [bind].
  destruct (memcpy_to qu a record sz); [|discriminate]. cbn [bind].
  destruct (Z.eqb_spec c nb) as [->|Hne]; simpl.
  - destruct ovw0; [destruct (impl0 =? FIFO)|]; intros [= <- <-]; simpl; lia.
  - intros [= <- <-]. simpl. rewrite wrap16_small; lia.
Qed.

Lemma q_pop_count q record ok q' record' :
  count_inv q -> q_pop q record = Done (ok, q', record') -> count_inv q'.
Proof.
  unfold count_inv. intros [Hc Hn].
  destruct q as [impl0 ovw0 nb sz qsz qu i o c ini].
  unfold q_pop, q_isEmpty. simpl in *.
  destruct (Z.eqb_spec c 0) as [->|Hne].
  { intros [= <- <- <-]. simpl. lia. }
  destruct (impl0 =? FIFO); [|destruct (impl0 =? LIFO)].
  - destruct (int_mul sz o); [|discriminate]. cbn [bind].
    destruct (memcpy_from record qu a sz); [|discriminate]. cbn [bind].
    intros [= <- <- <-]. simpl. rewrite wrap16_small; lia.
  - destruct (int_mul sz _); [|discriminate]. cbn [bind].
    destruct (memcpy_from record qu a sz); [|discriminate]. cbn [bind].
    intros [= <- <- <-]. simpl. rewrite wrap16_small; lia.
  - intros [= <- <- <-]. simpl. lia.
Qed.

Lemma q_peek_same q record ok q' record' :
  q_peek q record = Done (ok, q', record') -> q' = q.
Proof.
  unfold q_peek.
  repeat match goal with
         | |- context [bind ?c _] => destruct c; cbn [bind]
         | |- context [if ?b then _ else _] => destruct b
         end; congruence.
Qed.

Lemma q_drop_count q ok q' :
  count_inv q -> q_drop q = (ok, q') -> count_inv q'.
Proof.
  unfold count_inv. intros [Hc Hn].
  destruct q as [impl0 ovw0 nb sz qsz qu i o c ini].
  unfold q_drop, q_isEmpty. simpl in *.
  destruct (Z.eqb_spec c 0) as [->|Hne].
  { intros [= <- <-]. simpl. lia. }
  destruct (impl0 =? FIFO); [|destruct (impl0 =? LIFO)];
    intros [= <- <-]; simpl; rewrite ?wrap16_small; lia.
Qed.

Lemma reachable_count_inv q : reachable q -> count_inv q.
Proof.
  induction 1 as [q0 size_rec nb_recs type overwrite fresh q Hsz Hnb Hq
                 | q record ok q' _ IH Hq
                 | q record ok q' record' _ IH Hq
                 | q record ok q' record' _ IH Hq
                 | q ok q' _ IH Hq
                 | q _ IH
                 | q q' _ IH Hq].
  - apply q_init_done in Hq as [_ ->]. unfold count_inv. simpl. lia.
  - eapply q_push_count; eassumption.
  - eapply q_pop_count; eassumption.
  - apply q_peek_same in Hq as ->. assumption.
  - eapply q_drop_count; eassumption.
  - unfold count_inv in *. simpl. lia.
  - unfold q_kill in Hq. destruct (free (queue q)); [|discriminate].
    injection Hq as <-. exact IH.
Qed.

(** C6. In every state reached from a [q_init] with a positive number of
    records by calls of push, pop, peek, drop, flush and kill, the count
    lies between 0 and the capacity, [q_isEmpty] answers true exactly when
    the count is 0 and [q_isFull] exactly when it equals the capacity. *)
Theorem count_within_capacity q :
  reachable q ->
  0 <= cnt q <= rec_nb q
  /\ (q_isEmpty q = true <-> cnt q = 0)
  /\ (q_isFull q = true <-> cnt q = rec_nb q).
Proof.
  intros Hq. apply reachable_count_inv in Hq as [Hc _].
  split; [exact Hc|]. unfold q_isEmpty, q_isFull.
  split.
  - destruct (Z.eqb_spec (cnt q) 0); split; congruence.
  - destruct (Z.eqb_spec (cnt q) (rec_nb q)); split; congruence.
Qed.

Lemma count_within_capacity_witness :
  0 <= cnt fifo_one <= rec_nb fifo_one
  /\ (q_isEmpty fifo_one = true <-> cnt fifo_one = 0)
  /\ (q_isFull fifo_one = true <-> cnt fifo_one = rec_nb fifo_one).
Proof.
  apply (count_within_capacity fifo_one).
  apply (reach_push (ring3 FIFO false) recD true).
  - apply (reach_init zeroed 1 3 FIFO false (Some (fun _ => x00%byte)));
      [unfold UINT16_MAX; lia|unfold UINT16_MAX; lia|reflexivity].
  - reflexivity.
Defined.

End CountInvariant.

Section AllocationFailure.

(** When the allocator fails and [q_init] returns, the ring is marked
    initialised over a null storage pointer. *)
Lemma q_init_alloc_failure q0 size_rec nb_recs type overwrite q :
  q_init q0 size_rec nb_recs type overwrite None = Done q ->
  queue q = Null /\ q_isInitialized q = true.
Proof. intros Hq. apply q_init_done in Hq as [_ ->]. split; reflexivity. Qed.

(** C7, evaluated on the code: [q_init] on a zeroed structure, 4-byte
    records, 3 slots, with a failing [malloc]. The call returns normally
    (the function is [void]: nothing is signalled), the storage pointer is
    null and [q_isInitialized] answers true. *)
Theorem q_init_failed_allocation_reports_initialized :
  exists q,
    q_init zeroed 4 3 FIFO false None = Done q
    /\ queue q = Null
    /\ init q = QUEUE_INITIALIZED
    /\ q_isInitialized q = true.
Proof. eexists. repeat split. Qed.

End AllocationFailure.

Section ReadyFlag.



End ReadyFlag.

Section SizeQuery.

(** [q_init] leaves [queue_sz], the value [q_sizeof] reads, as it finds it. *)
Lemma q_init_keeps_queue_sz q0 size_rec nb_recs type overwrite fresh q :
  q_init q0 size_rec nb_recs type overwrite fresh = Done q ->
  q_sizeof q = q_sizeof q0.
Proof. intros Hq. apply q_init_done in Hq as [_ ->]. reflexivity. Qed.

(** No operation after [q_init] writes the configuration fields. *)
Lemma operations_keep_config q record :
  (forall ok q', q_push q record = Done (ok, q') -> same_config q q')
  /\ (forall ok q' record', q_pop q record = Done (ok, q', record') -> same_config q q')
  /\ (forall ok q' record', q_peek q record = Done (ok, q', record') -> same_config q q')
  /\ (forall ok q', q_drop q = (ok, q') -> same_config q q')
  /\ same_config q (q_flush q).
Proof.
  unfold q_push, q_pop, q_peek, q_drop, q_flush, same_config.
  repeat match goal with |- _ /\ _ => split end; intros *;
    repeat match goal with
           | |- context [bind ?c _] => destruct c; cbn [bind]
           | |- context [if ?b then _ else _] => destruct b
           end;
    try (intros H; inversion H; subst; clear H); simpl; tauto.
Qed.

(** C9, evaluated on the code: after a successful [q_init] of 3 records
    of 4 bytes on a zeroed structure the ring is ready, its storage holds
    12 bytes, and [q_sizeof] answers 0. *)
Theorem q_sizeof_after_init_is_stale :
  exists q,
    q_init zeroed 4 3 FIFO false (Some (fun _ => x00%byte)) = Done q
    /\ ready_ring q
    /\ length (storage q) = 12%nat
    /\ q_sizeof q = 0
    /\ q_sizeof q <> 3 * 4.
Proof. eexists. repeat split. discriminate. Qed.

End SizeQuery.

Section InvalidMode.

(** C10. When the mode field is neither FIFO nor LIFO, pop, peek and drop
    return false, the caller's buffer is the one passed (no byte is
    copied) and the ring, with [in], [out] and the count, is the one
    passed, whether or not the ring holds records. *)
Theorem invalid_mode_reads_fail q record :
  impl q <> FIFO -> impl q <> LIFO ->
  q_pop q record = Done (false, q, record)
  /\ q_peek q record = Done (false, q, record)
  /\ q_drop q = (false, q).
Proof.
  intros Hf Hl. unfold q_pop, q_peek, q_drop.
  destruct (Z.eqb_spec (impl q) FIFO) as [?|_]; [contradiction|].
  destruct (Z.eqb_spec (impl q) LIFO) as [?|_]; [contradiction|].
  destruct (q_isEmpty q); repeat split.
Qed.

Lemma invalid_mode_reads_fail_witness :
  q_isEmpty (full3 2 false) = false
  /\ q_pop (full3 2 false) [x00%byte] = Done (false, full3 2 false, [x00%byte])
  /\ q_peek (full3 2 false) [x00%byte] = Done (false, full3 2 false, [x00%byte])
  /\ q_drop (full3 2 false) = (false, full3 2 false).
Proof.
  split; [reflexivity|].
  apply (invalid_mode_reads_fail (full3 2 false) [x00%byte]); discriminate.
Defined.

End InvalidMode.

(** * The scenarios of the specification, run on the model *)

Section Scenarios.

(** Capacity 3, FIFO, no overwrite: A, B, C are accepted, D is refused,
    the pops give A then B. *)
Example scenario_fifo_full :
  (let* p := push_all (ring3 FIFO false) [recA; recB; recC; recD] in
   let* ps := pop_n (snd p) 2 [x00%byte] in
   Done (fst p, cnt (snd p), fst ps, cnt (snd ps)))
  = Done ([true; true; true; false], 3, [(true, recA); (true, recB)], 1).
Proof. reflexivity. Qed.

(** Capacity 3, FIFO, overwrite: A, B, C, D are accepted, the pop gives B
    and the count goes down to 2. *)
Example scenario_fifo_overwrite :
  (let* p := push_all (ring3 FIFO true) [recA; recB; recC; recD] in
   let* ps := pop_n (snd p) 1 [x00%byte] in
   Done (fst p, cnt (snd p), fst ps, cnt (snd ps)))
  = Done ([true; true; true; true], 3, [(true, recB)], 2).
Proof. reflexivity. Qed.

(** Capacity 3, LIFO, no overwrite: the pops give C, B, A. *)
Example scenario_lifo :
  push_then_pop (ring3 LIFO false) [recA; recB; recC] [x00%byte]
  = Done ([true; true; true], [(true, recC); (true, recB); (true, recA)]).
Proof. reflexivity. Qed.

End Scenarios.

(** * Further properties of the code *)

Section Creating.

(** X1. [q_init] with in-range sizes, a positive number of records, a
    product that fits [int] and a successful allocation, called on a
    structure that is not marked initialised or on a ready ring, returns a
    ready, empty ring that stores the arguments and owns
    [nb_recs * size_rec] bytes. *)
Theorem q_init_creates_ready_ring q0 size_rec nb_recs type overwrite fill :
  0 <= size_rec <= UINT16_MAX -> 0 < nb_recs <= UINT16_MAX ->
  nb_recs * size_rec <= INT_MAX ->
  init q0 <> QUEUE_INITIALIZED \/ ready_ring q0 ->
  exists q,
    q_init q0 size_rec nb_recs type overwrite (Some fill) = Done q
    /\ ready_ring q
    /\ q_isEmpty q = true /\ q_isFull q = false /\ q_getCount q = 0
    /\ rec_nb q = nb_recs /\ rec_sz q = size_rec
    /\ impl q = type /\ ovw q = overwrite
    /\ Z.of_nat (length (storage q)) = nb_recs * size_rec
    /\ contents q = [].
Proof.
  intros Hsz Hnb Hmax Hq0.
  assert (Hret : exists q, q_init q0 size_rec nb_recs type overwrite (Some fill) = Done q).
  { destruct Hq0 as [Hinit|Hr]; [now apply q_init_fresh|].
    apply ready_ring_spec in Hr as (Hinit & _ & _ & _ & (bytes & Hq & _) & _).
    unfold q_init, q_kill, int_mul. simpl. rewrite Hinit, Hq. simpl.
    destruct (Z.leb_spec (nb_recs * size_rec) INT_MAX); [simpl; eauto|lia]. }
  destruct Hret as (q & Hq). exists q. split; [exact Hq|].
  split; [eapply q_init_ready; eassumption|].
  apply q_init_done in Hq as [_ ->].
  unfold q_isFull, q_isEmpty, q_getCount, storage, contents, malloc.
  cbn [impl ovw rec_nb rec_sz queue_sz queue in_ out cnt init].
  rewrite length_map, length_seq.
  destruct (Z.eqb_spec 0 nb_recs); [lia|].
  repeat split; try reflexivity. nia.
Qed.

Lemma q_init_creates_ready_ring_witness :
  exists q,
    q_init zeroed 4 3 LIFO true (Some (fun _ => xff%byte)) = Done q
    /\ ready_ring q /\ rec_nb q = 3 /\ Z.of_nat (length (storage q)) = 12.
Proof.
  destruct (q_init_creates_ready_ring zeroed 4 3 LIFO true (fun _ => xff%byte))
    as (q & Hq & Hr & _ & _ & _ & Hnb & _ & _ & _ & Hlen & _);
    [unfold UINT16_MAX; lia|unfold UINT16_MAX; lia|unfold INT_MAX; lia
    |left; discriminate|].
  exists q. repeat split; assumption.
Defined.

(** X2. The default initialisation [q_init_def] (20 records, FIFO, no
    overwrite) on a structure that is not marked initialised returns for
    every record size of the [uint16_t] range, whatever the allocator
    answers (the byte count always fits [int]): the ring is empty, has 20
    free slots and is marked initialised; when the allocation succeeded it
    is ready. *)
Theorem q_init_def_creates_fifo_of_20 q0 sz fresh :
  0 <= sz <= UINT16_MAX -> init q0 <> QUEUE_INITIALIZED ->
  exists q,
    q_init_def q0 sz fresh = Done q
    /\ rec_nb q = 20 /\ rec_sz q = sz /\ impl q = FIFO /\ ovw q = false
    /\ q_getCount q = 0 /\ q_getRemainingCount q = 20
    /\ q_isInitialized q = true
    /\ (fresh <> None -> ready_ring q).
Proof.
  intros Hsz Hinit. unfold q_init_def.
  assert (Hmax : 20 * sz <= INT_MAX) by (unfold UINT16_MAX, INT_MAX in *; lia).
  destruct (q_init_fresh q0 sz 20 FIFO false fresh Hinit Hmax) as (q & Hq).
  exists q. split; [exact Hq|].
  assert (Hready : fresh <> None -> ready_ring q).
  { destruct fresh as [fill|]; [intros _|intros H; now elim H].
    eapply q_init_ready; try eassumption; unfold UINT16_MAX; lia. }
  apply q_init_done in Hq as [_ ->]. repeat split. exact Hready.
Qed.

Lemma q_init_def_creates_fifo_of_20_witness :
  (exists q,
     q_init_def zeroed 65535 (Some (fun _ => x00%byte)) = Done q
     /\ ready_ring q /\ rec_nb q = 20)
  /\ (exists q, q_init_def zeroed 65535 None = Done q /\ rec_nb q = 20).
Proof.
  split.
  - destruct (q_init_def_creates_fifo_of_20 zeroed 65535 (Some (fun _ => x00%byte)))
      as (q & Hq & Hnb & _ & _ & _ & _ & _ & _ & Hr);
      [unfold UINT16_MAX; lia|discriminate|].
    exists q. repeat split; try assumption. apply Hr. discriminate.
  - destruct (q_init_def_creates_fifo_of_20 zeroed 65535 None)
      as (q & Hq & Hnb & _); [unfold UINT16_MAX; lia|discriminate|].
    exists q. split; assumption.
Defined.

End Creating.

Section Killing.

(** X3. [q_kill] on a ready ring returns, changes no field (the storage
    pointer keeps its value and now dangles) and leaves the ring marked
    initialised; a second [q_kill], and any [q_init] on the killed ring,
    free the released block again: undefined behaviour. *)
Theorem q_kill_keeps_initialized_mark q :
  ready_ring q ->
  q_kill q = Done (set_queue q Dangling)
  /\ q_isInitialized (set_queue q Dangling) = true
  /\ q_kill (set_queue q Dangling) = Undefined
  /\ forall size_rec nb_recs type overwrite fresh,
       q_init (set_queue q Dangling) size_rec nb_recs type overwrite fresh = Undefined.
Proof.
  intros Hr. apply ready_ring_spec in Hr as (Hinit & _ & _ & _ & (bytes & Hq & _) & _).
  unfold q_kill, q_init, q_isInitialized. simpl.
  rewrite Hq, Hinit. simpl. repeat split.
Qed.

Lemma q_kill_keeps_initialized_mark_witness :
  q_kill (full3 FIFO false) = Done (set_queue (full3 FIFO false) Dangling)
  /\ q_init (set_queue (full3 FIFO false) Dangling) 1 3 FIFO false None = Undefined.
Proof.
  destruct (q_kill_keeps_initialized_mark (full3 FIFO false)) as (Hk & _ & _ & Hi);
    [reflexivity|].
  split; [exact Hk|apply Hi].
Defined.

(** X4. After [q_kill] of a ready ring the operations that copy records
    reach into the released storage: a push that is not refused, and a pop
    or a peek on a non-empty FIFO or LIFO ring, are undefined behaviour;
    drop and flush touch no storage and still return. *)
Theorem use_after_kill_is_undefined q q' record buf :
  ready_ring q -> q_kill q = Done q' ->
  (ovw q = true \/ cnt q < rec_nb q -> q_push q' record = Undefined)
  /\ (cnt q <> 0 -> impl q = FIFO \/ impl q = LIFO ->
      q_pop q' buf = Undefined /\ q_peek q' buf = Undefined)
  /\ q_drop q' = (fst (q_drop q), set_queue (snd (q_drop q)) Dangling)
  /\ q_flush q' = set_queue (q_flush q) Dangling.
Proof.
  intros Hr Hk.
  apply ready_ring_spec in Hr as (_ & _ & _ & _ & (bytes & Hq & _) & _).
  unfold q_kill in Hk. rewrite Hq in Hk. simpl in Hk. injection Hk as <-.
  destruct q as [impl0 ovw0 nb sz qsz qu i o c ini]. simpl in *.
  unfold q_push, q_pop, q_peek, q_drop, q_flush, q_isFull, q_isEmpty. simpl.
  split; [|split; [|split]].
  - intros Hroom.
    assert (Hg : negb ovw0 && (if c =? nb then true else false) = false).
    { destruct Hroom as [-> | Hlt]; [reflexivity|].
      destruct (Z.eqb_spec c nb); [lia|]. apply andb_false_r. }
    rewrite Hg. now destruct (int_mul sz i).
  - intros Hc Hmode. destruct (Z.eqb_spec c 0); [contradiction|].
    destruct Hmode as [-> | ->]; simpl; split;
      repeat match goal with
             | |- context [int_mul ?a ?b] => destruct (int_mul a b); simpl
             end; reflexivity.
  - destruct (c =? 0); [reflexivity|].
    destruct (impl0 =? FIFO); [reflexivity|].
    destruct (impl0 =? LIFO); reflexivity.
  - reflexivity.
Qed.

Lemma use_after_kill_is_undefined_witness :
  q_push (set_queue (full3 FIFO true) Dangling) recD = Undefined
  /\ q_pop (set_queue (full3 FIFO true) Dangling) [x00%byte] = Undefined.
Proof.
  destruct (use_after_kill_is_undefined (full3 FIFO true)
              (set_queue (full3 FIFO true) Dangling) recD [x00%byte])
    as (Hpush & Hpop & _); [reflexivity|reflexivity|].
  split; [apply Hpush; left; reflexivity|].
  apply Hpop; [discriminate|left; reflexivity].
Defined.

End Killing.

Section Counting.

(** X5. In every state reached from a [q_init] with a positive number of
    records, [q_getCount] and [q_getRemainingCount] add up to the capacity;
    no slot remains exactly when [q_isFull] answers true, and all remain
    exactly when [q_isEmpty] answers true. *)
Theorem remaining_count_complements_count q :
  reachable q ->
  q_getCount q + q_getRemainingCount q = rec_nb q
  /\ (q_getRemainingCount q = 0 <-> q_isFull q = true)
  /\ (q_getRemainingCount q = rec_nb q <-> q_isEmpty q = true).
Proof.
  intros Hq. apply reachable_count_inv in Hq as [Hc Hn].
  unfold q_getCount, q_getRemainingCount, q_isFull, q_isEmpty.
  rewrite wrap16_small by lia.
  destruct (Z.eqb_spec (cnt q) (rec_nb q)); destruct (Z.eqb_spec (cnt q) 0);
    repeat split; intros; try lia; try reflexivity; try discriminate.
Qed.

Lemma remaining_count_complements_count_witness :
  q_getCount fifo_one + q_getRemainingCount fifo_one = rec_nb fifo_one
  /\ (q_getRemainingCount fifo_one = 0 <-> q_isFull fifo_one = true)
  /\ (q_getRemainingCount fifo_one = rec_nb fifo_one <-> q_isEmpty fifo_one = true).
Proof.
  apply (remaining_count_complements_count fifo_one).
  apply (reach_push (ring3 FIFO false) recD true).
  - apply (reach_init zeroed 1 3 FIFO false (Some (fun _ => x00%byte)));
      [unfold UINT16_MAX; lia|unfold UINT16_MAX; lia|reflexivity].
  - reflexivity.
Defined.

(** X6. In every such state the count follows the calls that succeed: a
    push that returns true adds one, saturating at the capacity; a pop or a
    drop that returns true takes one off; a call that returns false leaves
    the count alone. *)
Theorem count_follows_successful_calls q record buf :
  reachable q ->
  (forall ok q', q_push q record = Done (ok, q') ->
     q_getCount q' = if ok then Z.min (q_getCount q + 1) (rec_nb q) else q_getCount q)
  /\ (forall ok q' buf', q_pop q buf = Done (ok, q', buf') ->
        q_getCount q' = if ok then q_getCount q - 1 else q_getCount q)
  /\ (forall ok q', q_drop q = (ok, q') ->
        q_getCount q' = if ok then q_getCount q - 1 else q_getCount q).
Proof.
  intros Hq. apply reachable_count_inv in Hq as [Hc Hn].
  destruct q as [impl0 ovw0 nb sz qsz qu i o c ini].
  unfold q_push, q_pop, q_drop, q_isFull, q_isEmpty, q_getCount. simpl in *.
  split; [|split].
  - intros ok q'.
    destruct (negb ovw0 && (if c =? nb then true else false)).
    { intros [= <- <-]. reflexivity. }
    destruct (int_mul sz i); [|discriminate]. cbn [bind].
    destruct (memcpy_to qu a record sz); [|discriminate]. cbn [bind].
    destruct (Z.eqb_spec c nb) as [->|Hne]; simpl.
    + destruct ovw0; [destruct (impl0 =? FIFO)|]; intros [= <- <-]; simpl; lia.
    + intros [= <- <-]. simpl. rewrite wrap16_small; lia.
  - intros ok q' buf'.
    destruct (Z.eqb_spec c 0) as [->|Hne].
    { intros [= <- <- <-]. reflexivity. }
    destruct (impl0 =? FIFO); [|destruct (impl0 =? LIFO)].
    + destruct (int_mul sz o); [|discriminate]. cbn [bind].
      destruct (memcpy_from buf qu a sz); [|discriminate]. cbn [bind].
      intros [= <- <- <-]. simpl. rewrite wrap16_small; lia.
    + destruct (int_mul sz _); [|discriminate]. cbn [bind].
      destruct (memcpy_from buf qu a sz); [|discriminate]. cbn [bind].
      intros [= <- <- <-]. simpl. rewrite wrap16_small; lia.
    + intros [= <- <- <-]. reflexivity.
  - intros ok q'.
    destruct (Z.eqb_spec c 0) as [->|Hne].
    { intros [= <- <-]. reflexivity. }
    destruct (impl0 =? FIFO); [|destruct (impl0 =? LIFO)];
      intros [= <- <-]; simpl; rewrite ?wrap16_small; lia.
Qed.

Lemma count_follows_successful_calls_witness :
  q_getCount fifo_one = Z.min (q_getCount (ring3 FIFO false) + 1) (rec_nb (ring3 FIFO false)).
Proof.
  destruct (count_follows_successful_calls (ring3 FIFO false) recD [x00%byte])
    as (Hpush & _).
  - apply (reach_init zeroed 1 3 FIFO false (Some (fun _ => x00%byte)));
      [unfold UINT16_MAX; lia|unfold UINT16_MAX; lia|reflexivity].
  - exact (Hpush true fifo_one eq_refl).
Defined.

End Counting.

Section Reading.

(** X7. On a ready ring drop is pop without the copy: for a buffer of at
    least [rec_sz] bytes, [q_pop] returns, and [q_drop] returns the same
    status and leaves the same ring. *)
Theorem drop_is_pop_without_copy q buf :
  ready_ring q -> (Z.to_nat (rec_sz q) <= length buf)%nat ->
  exists ok q' buf',
    q_pop q buf = Done (ok, q', buf') /\ q_drop q = (ok, q').
Proof.
  intros Hr Hbuf. destruct (q_drop_as_pop q buf Hr Hbuf) as (buf' & Hp).
  exists (fst (q_drop q)), (snd (q_drop q)), buf'.
  split; [exact Hp|]. now destruct (q_drop q).
Qed.

Lemma drop_is_pop_without_copy_witness :
  exists ok q' buf',
    q_pop (full3 LIFO false) [x00%byte] = Done (ok, q', buf')
    /\ q_drop (full3 LIFO false) = (ok, q').
Proof.
  apply (drop_is_pop_without_copy (full3 LIFO false) [x00%byte]);
    [reflexivity|simpl; lia].
Defined.

(** X8. On a ready ring a pop returns the status and the bytes a peek
    just before it returns: for a buffer of at least [rec_sz] bytes, both
    calls return, with the same status and the same buffer contents, and
    the peek leaves the ring as it was. *)
Theorem pop_returns_what_peek_showed q buf :
  ready_ring q -> (Z.to_nat (rec_sz q) <= length buf)%nat ->
  exists ok q' buf',
    q_peek q buf = Done (ok, q, buf') /\ q_pop q buf = Done (ok, q', buf').
Proof.
  intros Hr Hbuf.
  destruct (q_peek_as_pop q buf Hr Hbuf) as (ok & q' & buf' & Hpop & Hpeek).
  exists ok, q', buf'. split; assumption.
Qed.

Lemma pop_returns_what_peek_showed_witness :
  exists ok q' buf',
    q_peek (full3 FIFO false) [x00%byte] = Done (ok, full3 FIFO false, buf')
    /\ q_pop (full3 FIFO false) [x00%byte] = Done (ok, q', buf').
Proof.
  apply (pop_returns_what_peek_showed (full3 FIFO false) [x00%byte]);
    [reflexivity|simpl; lia].
Defined.



End Reading.

Section Ordering.

(** X10. On a ready ring that holds at least [n] records, [n] pops into a
    [rec_sz]-byte buffer all return true; in FIFO mode they give the [n]
    oldest live records, oldest first, in LIFO mode the [n] newest, newest
    first; the records not popped stay live, in their order. *)
Theorem pops_follow_mode_order q n buf :
  ready_ring q -> Z.of_nat n <= cnt q -> length buf = Z.to_nat (rec_sz q) ->
  (impl q = FIFO ->
   exists q',
     pop_n q n buf = Done (map (fun r => (true, r)) (take n (contents q)), q')
     /\ contents q' = drop n (contents q))
  /\ (impl q = LIFO ->
      exists q',
        pop_n q n buf = Done (map (fun r => (true, r)) (take n (rev (contents q))), q')
        /\ rev (contents q') = drop n (rev (contents q))).
Proof.
  intros Hr Hn Hbuf. split; intros Himpl.
  - destruct (pop_n_fifo n q buf Hr Himpl Hn) as (q' & Hp & _ & _ & Hc); [lia|].
    exists q'. rewrite Hp, drop_ge by lia. now rewrite map_snoc_nil.
  - destruct (pop_n_lifo n q buf Hr Himpl Hn) as (q' & Hp & _ & _ & Hc); [lia|].
    exists q'. rewrite Hp, drop_ge by lia. now rewrite map_snoc_nil.
Qed.

Lemma pops_follow_mode_order_witness :
  exists q',
    pop_n (full3 LIFO false) 2 [x00%byte] = Done ([(true, recC); (true, recB)], q')
    /\ rev (contents q') = [recA].
Proof.
  destruct (pops_follow_mode_order (full3 LIFO false) 2 [x00%byte]) as (_ & Hl);
    [reflexivity|simpl; lia|reflexivity|].
  destruct (Hl eq_refl) as (q' & Hp & Hc).
  exists q'. split; [exact Hp|exact Hc].
Defined.

(** X11. On a ready ring with overwrite enabled (or with room for all of
    them) every push of a sequence of [rec_sz]-byte records returns true,
    and the ring then holds the newest records of what it held followed by
    what was pushed, as many as the capacity allows, oldest first; the
    count is the number held before plus the number pushed, capped at the
    capacity. *)
Theorem pushes_keep_newest_records q recs :
  ready_ring q ->
  Forall (fun r => length r = Z.to_nat (rec_sz q)) recs ->
  ovw q = true \/ cnt q + Z.of_nat (length recs) <= rec_nb q ->
  exists q',
    push_all q recs = Done (map (fun _ => true) recs, q')
    /\ ready_ring q'
    /\ contents q'
       = drop (length (contents q ++ recs) - Z.to_nat (rec_nb q)) (contents q ++ recs)
    /\ q_getCount q' = Z.min (q_getCount q + Z.of_nat (length recs)) (rec_nb q).
Proof.
  intros Hr Hrecs Hroom.
  destruct (push_all_ready recs q Hr Hrecs Hroom) as (q' & Hp & Hr' & Hcfg & Hc).
  exists q'. split; [exact Hp|]. split; [exact Hr'|]. split; [exact Hc|].
  pose proof (contents_length q') as Hl. pose proof (contents_length q) as Hl0.
  rewrite Hc, length_drop, length_app in Hl.
  pose proof (proj1 (ready_ring_spec q) Hr) as (_ & Hnb & _ & _ & _ & _ & _ & Hcnt & _).
  pose proof (proj1 (ready_ring_spec q') Hr') as (_ & _ & _ & _ & _ & _ & _ & Hcnt' & _).
  unfold q_getCount. lia.
Qed.

Lemma pushes_keep_newest_records_witness :
  exists q',
    push_all (full3 FIFO true) [recD; recA] = Done ([true; true], q')
    /\ contents q' = [recC; recD; recA].
Proof.
  destruct (pushes_keep_newest_records (full3 FIFO true) [recD; recA])
    as (q' & Hp & _ & Hc & _); [reflexivity|repeat constructor|left; reflexivity|].
  exists q'. split; [exact Hp|exact Hc].
Defined.

Lemma push_all_refused recs : forall q,
  ovw q = false -> cnt q = rec_nb q ->
  push_all q recs = Done (map (fun _ => false) recs, q).
Proof.
  induction recs as [|r rest IH]; intros q Hovw Hfull; [reflexivity|].
  cbn [push_all map]. unfold q_push at 1, q_isFull.
  rewrite Hovw, Hfull, Z.eqb_refl. cbn [negb andb bind].
  now rewrite IH.
Qed.

Lemma push_all_saturates recs : forall q,
  ready_ring q -> ovw q = false ->
  Forall (fun r => length r = Z.to_nat (rec_sz q)) recs ->
  exists q',
    push_all q recs
    = Done (map (fun _ => true) (take (Z.to_nat (rec_nb q - cnt q)) recs)
            ++ map (fun _ => false) (drop (Z.to_nat (rec_nb q - cnt q)) recs), q')
    /\ ready_ring q'
    /\ contents q' = contents q ++ take (Z.to_nat (rec_nb q - cnt q)) recs.
Proof.
  induction recs as [|r rest IH]; intros q Hr Hovw Hrecs.
  - exists q. rewrite take_nil, drop_nil.
    split; [reflexivity|]. split; [assumption|now rewrite app_nil_r].
  - apply Forall_cons in Hrecs as [Hlen Hrest].
    pose proof (proj1 (ready_ring_spec q) Hr) as (_ & Hnb & _ & _ & _ & _ & _ & Hcnt & _).
    destruct (Z.eq_dec (cnt q) (rec_nb q)) as [Hfull|Hne].
    + exists q. rewrite push_all_refused by assumption.
      replace (Z.to_nat (rec_nb q - cnt q)) with 0%nat by lia.
      cbn [take drop map app]. rewrite app_nil_r. auto.
    + destruct (q_push_ready q r Hr) as (q1 & Hpush & Hr1 & Hcfg & Hin & Hc & _ & Hsame & Hother);
        [lia|right; lia|].
      rewrite take_ge in Hsame by lia.
      pose proof (contents_push q q1 r Hr Hcfg Hin Hc Hsame Hother) as Hcont.
      destruct (Z.eqb_spec (cnt q) (rec_nb q)); [contradiction|].
      pose proof Hcfg as (_ & Eovw & Enb & Esz & _).
      destruct (IH q1 Hr1) as (q2 & Hall & Hr2 & Hcont2);
        [congruence|now rewrite Esz|].
      exists q2. cbn [push_all]. rewrite Hpush. cbn [bind]. rewrite Hall. cbn [bind].
      rewrite Hcont2, Hcont, Enb, Hc.
      replace (Z.to_nat (rec_nb q - cnt q))
        with (S (Z.to_nat (rec_nb q - Z.min (cnt q + 1) (rec_nb q)))) by lia.
      cbn [take drop map app]. rewrite <- app_assoc.
      split; [reflexivity|]. split; [assumption|reflexivity].
Qed.

(** X12. On a ready ring with overwrite disabled, a sequence of pushes of
    [rec_sz]-byte records fills the free slots and no more: the first
    [rec_nb - cnt] pushes return true, all later ones return false, and the
    ring then holds what it held followed by the accepted records. *)
Theorem pushes_stop_when_full q recs :
  ready_ring q -> ovw q = false ->
  Forall (fun r => length r = Z.to_nat (rec_sz q)) recs ->
  exists q',
    push_all q recs
    = Done (map (fun _ => true) (take (Z.to_nat (rec_nb q - cnt q)) recs)
            ++ map (fun _ => false) (drop (Z.to_nat (rec_nb q - cnt q)) recs), q')
    /\ ready_ring q'
    /\ contents q' = contents q ++ take (Z.to_nat (rec_nb q - cnt q)) recs.
Proof. intros. now apply push_all_saturates. Qed.

Lemma pushes_stop_when_full_witness :
  exists q',
    push_all fifo_one [recA; recB; recC] = Done ([true; true; false], q')
    /\ contents q' = [recD; recA; recB].
Proof.
  destruct (pushes_stop_when_full fifo_one [recA; recB; recC]) as (q' & Hp & _ & Hc);
    [reflexivity|reflexivity|repeat constructor|].
  exists q'. split; [exact Hp|exact Hc].
Defined.

End Ordering.

Section Cursors.

(** X13. On a valid index of a ring of at most 65535 slots, [INC_IDX] and
    [DEC_IDX] stay inside the ring and undo each other; the increment
    wraps to 0 exactly at the last index, the decrement wraps to the last
    index exactly at 0. *)
Theorem index_macros_are_inverse i n :
  0 <= i < n -> n <= UINT16_MAX ->
  0 <= INC_IDX i n 0 < n
  /\ 0 <= DEC_IDX i n 0 < n
  /\ DEC_IDX (INC_IDX i n 0) n 0 = i
  /\ INC_IDX (DEC_IDX i n 0) n 0 = i
  /\ (INC_IDX i n 0 = 0 <-> i = n - 1)
  /\ (DEC_IDX i n 0 = n - 1 <-> i = 0).
Proof.
  intros Hi Hn.
  pose proof (INC_IDX_mod i n Hi Hn) as Hinc.
  pose proof (DEC_IDX_mod i n Hi Hn) as Hdec.
  assert (Hpos : 0 < n) by lia.
  pose proof (mod_range (i + 1) n Hpos) as Hincr.
  pose proof (mod_range (i - 1) n Hpos) as Hdecr.
  rewrite <- Hinc in Hincr. rewrite <- Hdec in Hdecr.
  split; [exact Hincr|]. split; [exact Hdecr|].
  split; [|split].
  - rewrite DEC_IDX_mod, Hinc by assumption.
    rewrite Zminus_mod_idemp_l. replace (i + 1 - 1) with i by lia.
    apply Z.mod_small. lia.
  - rewrite INC_IDX_mod, Hdec by assumption.
    rewrite Zplus_mod_idemp_l. replace (i - 1 + 1) with i by lia.
    apply Z.mod_small. lia.
  - clear Hinc Hdec Hincr Hdecr. unfold INC_IDX, DEC_IDX. rewrite Z.gtb_ltb.
    change (wrap16 0) with 0.
    destruct (Z.ltb_spec i (n - 1)); destruct (Z.ltb_spec 0 i);
      rewrite ?wrap16_small by (unfold UINT16_MAX in *; lia); lia.
Qed.

Lemma index_macros_are_inverse_witness :
  INC_IDX 2 3 0 = 0 /\ DEC_IDX 0 3 0 = 2.
Proof.
  destruct (index_macros_are_inverse 2 3) as (_ & _ & _ & _ & Hinc & _);
    [lia|unfold UINT16_MAX; lia|].
  destruct (index_macros_are_inverse 0 3) as (_ & _ & _ & _ & _ & Hdec);
    [lia|unfold UINT16_MAX; lia|].
  split; [apply Hinc; reflexivity|apply Hdec; reflexivity].
Defined.

End Cursors.

Section Frames.

(** X14. Pop, peek, drop and flush never write the storage region: on any
    ring, whatever they return, the storage pointer and the bytes it
    designates are the ones before the call. *)
Theorem reads_never_write_storage q buf :
  (forall ok q' buf', q_pop q buf = Done (ok, q', buf') -> queue q' = queue q)
  /\ (forall ok q' buf', q_peek q buf = Done (ok, q', buf') -> queue q' = queue q)
  /\ queue (snd (q_drop q)) = queue q
  /\ queue (q_flush q) = queue q.
Proof.
  unfold q_pop, q_peek, q_drop, q_flush.
  split; [intros ok q' buf'|split; [intros ok q' buf'|split]];
    op_cases; try (intros H; inversion H; subst; clear H); reflexivity.
Qed.

(** X15. Each mode moves its own cursor only. When the mode is FIFO, pop
    and drop leave [in] alone; when the mode is not FIFO, push, pop and
    drop leave [out] alone. *)
Theorem each_mode_moves_its_own_cursor q record buf :
  (impl q = FIFO ->
   (forall ok q' buf', q_pop q buf = Done (ok, q', buf') -> in_ q' = in_ q)
   /\ in_ (snd (q_drop q)) = in_ q)
  /\ (impl q <> FIFO ->
      (forall ok q', q_push q record = Done (ok, q') -> out q' = out q)
      /\ (forall ok q' buf', q_pop q buf = Done (ok, q', buf') -> out q' = out q)
      /\ out (snd (q_drop q)) = out q).
Proof.
  unfold q_push, q_pop, q_drop. split.
  - intros ->. change (FIFO =? FIFO) with true. cbv iota.
    split; [intros ok q' buf'|];
      op_cases; try (intros H; inversion H; subst; clear H); reflexivity.
  - intros Hne.
    change (impl (set_in (set_queue q ?r) ?v)) with (impl q).
    destruct (Z.eqb_spec (impl q) FIFO) as [?|_]; [contradiction|].
    split; [intros ok q'|split; [intros ok q' buf'|]];
      op_cases; try (intros H; inversion H; subst; clear H); reflexivity.
Qed.

Lemma each_mode_moves_its_own_cursor_witness :
  in_ (snd (q_drop (full3 FIFO false))) = in_ (full3 FIFO false)
  /\ out (snd (q_drop (full3 LIFO false))) = out (full3 LIFO false).
Proof.
  destruct (each_mode_moves_its_own_cursor (full3 FIFO false) recA [x00%byte])
    as (Hf & _).
  destruct (each_mode_moves_its_own_cursor (full3 LIFO false) recA [x00%byte])
    as (_ & Hl).
  split; [apply Hf; reflexivity|apply Hl; discriminate].
Defined.

Lemma memcpy_from_frame dst r off n dst' :
  memcpy_from dst r off n = Done dst' ->
  length dst' = length dst
  /\ drop (Z.to_nat n) dst' = drop (Z.to_nat n) dst.
Proof.
  unfold memcpy_from, load, store. destruct r as [| |bytes]; try discriminate.
  destruct ((0 <=? off) && (0 <=? n) && (off + n <=? Z.of_nat (length bytes))) eqn:Hc;
    [|discriminate].
  apply andb_true_iff in Hc as [Hc Hc3]. apply andb_true_iff in Hc as [Hc1 Hc2].
  apply Z.leb_le in Hc1, Hc2, Hc3. cbn [bind].
  set (data := take (Z.to_nat n) (drop (Z.to_nat off) bytes)).
  assert (Hd : length data = Z.to_nat n).
  { unfold data. rewrite length_take_le; [reflexivity|]. rewrite length_drop. lia. }
  destruct ((0 <=? 0) && (0 + Z.of_nat (length data) <=? Z.of_nat (length dst))) eqn:Hs;
    [|discriminate].
  apply andb_true_iff in Hs as [_ Hs]. apply Z.leb_le in Hs.
  intros [= <-]. cbn [Z.to_nat take app Nat.add]. split.
  - rewrite length_app, length_drop. lia.
  - rewrite <- Hd. now rewrite drop_app_length.
Qed.

(** X16. Pop and peek write the first [rec_sz] bytes of the caller's
    buffer and nothing else: on any ring, whenever they return, the buffer
    has the length it had and the bytes after the first [rec_sz] are the
    ones before the call; when they return false the whole buffer is the
    one before the call. *)
Theorem reads_stay_inside_record q buf :
  (forall ok q' buf', q_pop q buf = Done (ok, q', buf') ->
     length buf' = length buf
     /\ drop (Z.to_nat (rec_sz q)) buf' = drop (Z.to_nat (rec_sz q)) buf
     /\ (ok = false -> buf' = buf))
  /\ (forall ok q' buf', q_peek q buf = Done (ok, q', buf') ->
        length buf' = length buf
        /\ drop (Z.to_nat (rec_sz q)) buf' = drop (Z.to_nat (rec_sz q)) buf
        /\ (ok = false -> buf' = buf)).
Proof.
  unfold q_pop, q_peek.
  change (rec_sz (set_out q ?v)) with (rec_sz q).
  change (rec_sz (set_in q ?v)) with (rec_sz q).
  split; intros ok q' buf';
    repeat match goal with
           | |- context [if ?b then _ else _] => destruct b
           | |- context [bind (int_mul ?a ?b) _] => destruct (int_mul a b); cbn [bind]
           | |- context [bind (memcpy_from ?d ?r ?o ?n) _] =>
               let E := fresh "E" in
               destruct (memcpy_from d r o n) eqn:E; cbn [bind];
               [apply memcpy_from_frame in E as [? ?]|]
           end;
    intros Hres; inversion Hres; subst; clear Hres;
    repeat split; auto; discriminate.
Qed.

(** X17. Push reads the first [rec_sz] bytes of the record it is given and
    nothing else: on any ring, pushing a record and pushing its first
    [rec_sz] bytes give the same result. *)
Theorem push_reads_only_record_size q record :
  q_push q (take (Z.to_nat (rec_sz q)) record) = q_push q record.
Proof.
  unfold q_push, memcpy_to.
  assert (Hl : load (take (Z.to_nat (rec_sz q)) record) 0 (rec_sz q)
               = load record 0 (rec_sz q)).
  { unfold load. rewrite length_take.
    destruct (Z.leb_spec 0 (rec_sz q)) as [Hn|Hn]; [|reflexivity].
    cbn [andb Z.leb Z.to_nat drop Z.compare].
    destruct (Z.leb_spec (0 + rec_sz q) (Z.of_nat (length record))) as [Hlen|Hlen].
    - destruct (Z.leb_spec (0 + rec_sz q)
                  (Z.of_nat (Z.to_nat (rec_sz q) `min` length record))); [|lia].
      change (Z.to_nat 0) with 0%nat. rewrite !drop_0.
      now rewrite take_take, Nat.min_id.
    - destruct (Z.leb_spec (0 + rec_sz q)
                  (Z.of_nat (Z.to_nat (rec_sz q) `min` length record))); [lia|].
      reflexivity. }
  destruct (negb (ovw q) && q_isFull q); [reflexivity|].
  destruct (int_mul (rec_sz q) (in_ q)); [|reflexivity]. cbn [bind].
  destruct (queue q); try reflexivity. now rewrite Hl.
Qed.

(** X18. A push that is accepted on a ready ring writes one slot: with
    overwrite enabled or a free slot, and a record of at least [rec_sz]
    bytes, push returns true, slot [in] then holds the first [rec_sz] bytes
    of the record, every other slot holds what it held, the storage keeps
    its size, and [in] moves to [(in + 1) mod rec_nb]. *)
Theorem accepted_push_writes_one_slot q record :
  ready_ring q ->
  (Z.to_nat (rec_sz q) <= length record)%nat ->
  ovw q = true \/ cnt q < rec_nb q ->
  exists q',
    q_push q record = Done (true, q')
    /\ slot (storage q') (rec_sz q) (in_ q) = take (Z.to_nat (rec_sz q)) record
    /\ (forall j, 0 <= j < rec_nb q -> j <> in_ q ->
          slot (storage q') (rec_sz q) j = slot (storage q) (rec_sz q) j)
    /\ length (storage q') = length (storage q)
    /\ in_ q' = (in_ q + 1) mod rec_nb q.
Proof.
  intros Hr Hrec Hroom.
  destruct (q_push_ready q record Hr Hrec Hroom)
    as (q' & Hp & Hr' & Hcfg & Hin & _ & _ & Hsame & Hother).
  exists q'. split; [exact Hp|]. split; [exact Hsame|]. split; [exact Hother|].
  pose proof (proj1 (ready_ring_spec q) Hr)
    as (_ & Hnb & _ & _ & (b & Hq & Hlen) & Hi & _).
  pose proof (proj1 (ready_ring_spec q') Hr')
    as (_ & _ & _ & _ & (b' & Hq' & Hlen') & _).
  destruct Hcfg as (_ & _ & Enb & Esz & _).
  split.
  - unfold storage. rewrite Hq, Hq'. rewrite Enb, Esz in Hlen'. lia.
  - rewrite Hin. apply INC_IDX_mod; lia.
Qed.

Lemma accepted_push_writes_one_slot_witness :
  exists q',
    q_push fifo_one recA = Done (true, q')
    /\ slot (storage q') 1 1 = recA
    /\ slot (storage q') 1 0 = recD.
Proof.
  destruct (accepted_push_writes_one_slot fifo_one recA)
    as (q' & Hp & Hs & Ho & _); [reflexivity|simpl; lia|right; simpl; lia|].
  exists q'. split; [exact Hp|]. split; [exact Hs|].
  apply (Ho 0); [simpl; lia|discriminate].
Defined.

End Frames.

Section FramesExamples.

Lemma reads_never_write_storage_witness :
  queue (set_cnt (set_out (full3 FIFO false) 1) 2) = Live [x41; x42; x43]%byte.
Proof.
  destruct (reads_never_write_storage (full3 FIFO false) [x00%byte]) as (Hpop & _).
  exact (Hpop true (set_cnt (set_out (full3 FIFO false) 1) 2) recA eq_refl).
Defined.

Lemma reads_stay_inside_record_witness :
  (length [x41; x11; x22]%byte = 3%nat
   /\ drop 1 [x41; x11; x22]%byte = [x11; x22]%byte)
  /\ snd (ring3 FIFO false, [x00; x11; x22]%byte) = [x00; x11; x22]%byte.
Proof.
  split.
  - destruct (reads_stay_inside_record (full3 FIFO false) [x00; x11; x22]%byte)
      as (Hpop & _).
    destruct (Hpop true (set_cnt (set_out (full3 FIFO false) 1) 2)
                   [x41; x11; x22]%byte eq_refl) as (Hlen & Hdrop & _).
    split; [exact Hlen|exact Hdrop].
  - destruct (reads_stay_inside_record (ring3 FIFO false) [x00; x11; x22]%byte)
      as (Hpop & _).
    destruct (Hpop false (ring3 FIFO false) [x00; x11; x22]%byte eq_refl)
      as (_ & _ & Hsame).
    exact (Hsame eq_refl).
Defined.

End FramesExamples.

Section FlushAndStack.

(** X19. Flush on a ready ring discards every record: afterwards no record
    is live, all [rec_nb] slots are free, and pop, peek and drop return
    false and change neither the ring nor the caller's buffer. *)
Theorem flush_discards_all_records q buf :
  ready_ring q ->
  contents (q_flush q) = []
  /\ q_isEmpty (q_flush q) = true
  /\ q_getCount (q_flush q) = 0
  /\ q_getRemainingCount (q_flush q) = rec_nb q
  /\ q_pop (q_flush q) buf = Done (false, q_flush q, buf)
  /\ q_peek (q_flush q) buf = Done (false, q_flush q, buf)
  /\ q_drop (q_flush q) = (false, q_flush q).
Proof.
  intros Hr. apply ready_ring_spec in Hr as (_ & Hnb & _).
  repeat split.
  unfold q_getRemainingCount. simpl. rewrite Z.sub_0_r. apply wrap16_small. lia.
Qed.

Lemma flush_discards_all_records_witness :
  contents (q_flush (full3 LIFO true)) = []
  /\ q_getRemainingCount (q_flush (full3 LIFO true)) = 3.
Proof.
  destruct (flush_discards_all_records (full3 LIFO true) [x00%byte])
    as (Hc & _ & _ & Hrem & _); [reflexivity|].
  split; [exact Hc|exact Hrem].
Defined.

(** X20. On a ready LIFO ring with a free slot, a push followed by a pop
    is a no-op on the logical state: both calls return true, the pop gives
    back the record pushed, and [in], [out], the count and the live
    records are the ones before the push. *)
Theorem lifo_pop_undoes_push q record buf :
  ready_ring q -> impl q = LIFO -> cnt q < rec_nb q ->
  length record = Z.to_nat (rec_sz q) -> length buf = Z.to_nat (rec_sz q) ->
  exists q' q'',
    q_push q record = Done (true, q')
    /\ q_pop q' buf = Done (true, q'', record)
    /\ in_ q'' = in_ q /\ out q'' = out q /\ cnt q'' = cnt q
    /\ contents q'' = contents q.
Proof.
  intros Hr Himpl Hroom Hrec Hbuf.
  pose proof (proj1 (ready_ring_spec q) Hr) as (_ & Hnb & _ & _ & _ & Hin & _ & Hcnt & _).
  destruct (q_push_ready q record Hr) as (q' & Hp & Hr' & Hcfg & Hin' & Hc' & Hout' & Hsame & Hother);
    [lia|right; exact Hroom|].
  rewrite take_ge in Hsame by lia.
  pose proof (contents_push q q' record Hr Hcfg Hin' Hc' Hsame Hother) as Hcont.
  destruct (Z.eqb_spec (cnt q) (rec_nb q)) as [?|_]; [lia|].
  pose proof Hcfg as (Eimpl & _ & Enb & Esz & _).
  destruct (q_pop_lifo q' buf Hr') as (q'' & Hpop & _ & _ & _ & Hin'' & Hout'' & Hc'' & Hcont'');
    [congruence|lia|rewrite Esz; lia|].
  assert (Hback : DEC_IDX (in_ q') (rec_nb q') 0 = in_ q).
  { rewrite Enb, Hin', INC_IDX_mod by lia.
    rewrite DEC_IDX_mod by (try apply mod_range; lia).
    rewrite Zminus_mod_idemp_l. replace (in_ q + 1 - 1) with (in_ q) by lia.
    apply Z.mod_small. lia. }
  rewrite Hback, Esz in Hpop, Hcont''. rewrite Hsame in Hpop, Hcont''.
  rewrite drop_ge, app_nil_r in Hpop by lia.
  exists q', q''. split; [exact Hp|]. split; [exact Hpop|].
  split; [congruence|]. split.
  { rewrite Hout'', Hout'. destruct (cnt q =? rec_nb q); [|reflexivity].
    rewrite Himpl. reflexivity. }
  split; [lia|].
  rewrite Hcont in Hcont''. now apply app_inj_tail in Hcont'' as [-> _].
Qed.

Lemma lifo_pop_undoes_push_witness :
  exists q' q'',
    q_push (ring3 LIFO false) recA = Done (true, q')
    /\ q_pop q' [x00%byte] = Done (true, q'', recA)
    /\ in_ q'' = 0 /\ cnt q'' = 0.
Proof.
  destruct (lifo_pop_undoes_push (ring3 LIFO false) recA [x00%byte])
    as (q' & q'' & Hp & Hpop & Hin & _ & Hc & _);
    [reflexivity|reflexivity|simpl; lia|reflexivity|reflexivity|].
  exists q', q''. repeat split; assumption.
Defined.

End FlushAndStack.
